(** * barrier-server.js: the check-in handler, the keep-alive ticker and the
      configuration, embedded as executable definitions, with the properties
      of the barrier proved about them.

    The server keeps one JavaScript object per url (group) that maps the id
    of every client whose request is being held to the response object of that
    request.  All of its state lives in those objects, so the embedding starts
    with plain JavaScript objects used as string-keyed maps. *)

From Stdlib Require Import ZArith Ascii String.
From stdpp Require Import base list strings sorting.

Local Open Scope string_scope.
Local Open Scope list_scope.

(** ** JavaScript objects used as maps *)

Module JsObject.

(** The own properties of an object literal [{}], in creation order. *)
Abbreviation t V := (list (string * V)).

(** What [o[k]] evaluates to: an own property, a member inherited from
    [Object.prototype] (a value that is not [undefined]), or [undefined]. *)
Inductive lookup (V : Type) : Type :=
| Undefined : lookup V
| Own : V -> lookup V
| Inherited : lookup V.
Global Arguments Undefined {V}.
Global Arguments Own {V} _.
Global Arguments Inherited {V}.

(** The members of [Object.prototype]: [o[k]] is not [undefined] for these
    keys, on every object created by [{}]. *)
Definition prototype_keys : list string :=
  [ "constructor"; "toString"; "toLocaleString"; "valueOf";
    "hasOwnProperty"; "isPrototypeOf"; "propertyIsEnumerable";
    "__defineGetter__"; "__defineSetter__";
    "__lookupGetter__"; "__lookupSetter__"; "__proto__" ].

Definition inherited (k : string) : bool :=
  bool_decide (k ∈ prototype_keys).

Section ops.
Context {V : Type}.

Fixpoint own_get (o : t V) (k : string) : option V :=
  match o with
  | [] => None
  | (k', v) :: o' => if decide (k' = k) then Some v else own_get o' k
  end.

(** [o[k]] *)
Definition get (o : t V) (k : string) : lookup V :=
  match own_get o k with
  | Some v => Own v
  | None => if inherited k then Inherited else Undefined
  end.

(** [o[k] === undefined] *)
Definition is_undefined (o : t V) (k : string) : bool :=
  match get o k with Undefined => true | _ => false end.

(** [o[k] = v] for a data property: an existing own property keeps its
    place, a new one goes last. *)
Fixpoint set (o : t V) (k : string) (v : V) : t V :=
  match o with
  | [] => [(k, v)]
  | (k', v') :: o' =>
      if decide (k' = k) then (k, v) :: o' else (k', v') :: set o' k v
  end.

Definition own_keys (o : t V) : list string := o.*1.
End ops.

(** *** The order of [Object.keys]

    Keys that are array indices (canonical decimal numerals below
    [2^32 - 1]) come first, in increasing numeric order; the other keys
    follow in creation order. *)

Definition digit (a : ascii) : option N :=
  let n := N_of_ascii a in
  if ((48 <=? n) && (n <=? 57))%N then Some (n - 48)%N else None.

Fixpoint decimal (s : string) (acc : N) : option N :=
  match s with
  | EmptyString => Some acc
  | String a s' =>
      match digit a with
      | Some d => decimal s' (10 * acc + d)%N
      | None => None
      end
  end.

Definition array_index (s : string) : option N :=
  match s with
  | EmptyString => None
  | String a s' =>
      match digit a, s' with
      | None, _ => None
      | Some 0%N, EmptyString => Some 0%N
      | Some 0%N, String _ _ => None
      | Some _, _ =>
          match decimal s 0 with
          | Some n => if (n <? 4294967295)%N then Some n else None
          | None => None
          end
      end
  end.

Definition is_index (s : string) : Prop := is_Some (array_index s).

Definition index_le (s1 s2 : string) : Prop :=
  (default 0 (array_index s1) <= default 0 (array_index s2))%N.

Global Instance index_le_dec s1 s2 : Decision (index_le s1 s2).
Proof. unfold index_le. apply _. Defined.

(** [Object.keys] applied to a list of own keys in creation order. *)
Definition keys_order (ks : list string) : list string :=
  merge_sort index_le (filter is_index ks)
    ++ filter (λ k, ¬ is_index k) ks.

(** [Object.keys(o)] *)
Definition keys {V : Type} (o : t V) : list string :=
  keys_order (own_keys o).

End JsObject.

Import JsObject.

(** ** Responses, exceptions and the handler monad *)

(** A response object ([res], an [http.ServerResponse]) is known by its
    identity; what the server does to it is recorded as a list of actions. *)
Definition Handle : Type := nat.

Inductive Action : Type :=
| WriteHead (res : Handle) (status : Z)      (* res.writeHead(status, {...}) *)
| SetStatusCode (res : Handle) (status : Z)  (* res.statusCode = status *)
| Write (res : Handle) (chunk : string)      (* res.write(chunk) *)
| End (res : Handle) (data : option string). (* res.end(data) *)

Global Instance Action_eq_dec : EqDecision Action.
Proof. solve_decision. Defined.

(** [function HttpError(statusCode, message)] *)
Record HttpError : Type := { statusCode : Z; message : option string }.

Definition new_HttpError (code : Z) (msg : option string) : HttpError :=
  {| statusCode := if (code =? 0)%Z then 400%Z else code; message := msg |}.

Inductive Exn : Type :=
| EHttp (e : HttpError)   (* thrown by the handler itself *)
| ETypeError              (* a member of undefined, or a call of a non-function *)
| EHost (a : Action).     (* raised by the method of a response object *)

Inductive Completion (A : Type) : Type :=
| Normal (a : A)
| Throw (e : Exn).
Global Arguments Normal {A} _.
Global Arguments Throw {A} _.

(** [checkinStore]: url -> id -> response being held. *)
Definition Store : Type := JsObject.t (JsObject.t Handle).

(** A computation reads and updates [checkinStore], performs actions on
    response objects, and completes normally or throws. *)
Definition M (A : Type) : Type := Store -> Store * list Action * Completion A.

Definition ret {A} (a : A) : M A := λ s, (s, [], Normal a).
Definition throw {A} (e : Exn) : M A := λ s, (s, [], Throw e).
Definition bind {A B} (m : M A) (f : A -> M B) : M B :=
  λ s, match m s with
       | (s1, l1, Normal a) =>
           let '(s2, l2, c) := f a s1 in (s2, l1 ++ l2, c)
       | (s1, l1, Throw e) => (s1, l1, Throw e)
       end.
Definition read_store : M Store := λ s, (s, [], Normal s).
Definition write_store (s' : Store) : M unit := λ _, (s', [], Normal tt).

(** [try { m } catch (ex) { if (!(ex instanceof HttpError)) throw ex; h ex }] *)
Definition catch_http {A} (m : M A) (h : HttpError -> M A) : M A :=
  λ s, match m s with
       | (s1, l1, Throw (EHttp e)) =>
           let '(s2, l2, c) := h e s1 in (s2, l1 ++ l2, c)
       | r => r
       end.

Global Instance M_ret : MRet M := @ret.
Global Instance M_bind : MBind M := λ A B f m, bind m f.

(** [l.forEach(f)]: the first exception ends the iteration. *)
Fixpoint forEach {A} (l : list A) (f : A -> M unit) : M unit :=
  match l with
  | [] => mret tt
  | x :: l' => f x;; forEach l' f
  end.

Definition dquote : string := String "034" EmptyString.
Definition crlf : string := String "013" (String "010" EmptyString).
Definition GO : string := "GO" +:+ crlf.
Definition HOLD : string := "HOLD" +:+ crlf.

(** ** Requests *)

(** The value of [querystring.parse(reqBody)['id']]: [undefined] when the
    body has no [id] field, a string for one field, an array for several. *)
Inductive QsValue : Type :=
| QUndefined
| QString (s : string)
| QArray (l : list string).

(** String conversion, as in ['...' + id] and in the property key of
    [checkins[id]]. *)
Definition to_string (v : QsValue) : string :=
  match v with
  | QUndefined => "undefined"
  | QString s => s
  | QArray l => String.concat "," l
  end.

(** What the handler reads of a request once its body is complete.  [url]
    is the request target that node's parser accepted: it starts with a slash
    or is an absolute URI, so it is never the name of a member of
    [Object.prototype], and [config.expected[req.url]] and
    [checkinStore[req.url]] see own properties only. *)
Record Request : Type := {
  method : string;
  url : string;
  id : QsValue
}.

Fixpoint index_from (l : list string) (s : string) (i : Z) : Z :=
  match l with
  | [] => (-1)%Z
  | x :: l' => if decide (x = s) then i else index_from l' s (i + 1)%Z
  end.

(** [expectedIds.indexOf(id)]: strict equality, so only a string is found. *)
Definition indexOf (expectedIds : list string) (v : QsValue) : Z :=
  match v with
  | QString s => index_from expectedIds s 0
  | _ => (-1)%Z
  end.

(** The errors of the handler, under the names the specification gives them. *)

(** [new HttpError(405)] *)
Definition MethodNotAllowed : HttpError := new_HttpError 405 None.

(** [new HttpError(404)] *)
Definition UnknownGroup : HttpError := new_HttpError 404 None.

(** [new HttpError(400, 'Unrecognized id: "' + id + '"\r\n')] *)
Definition UnrecognizedParticipant (id : QsValue) : HttpError :=
  new_HttpError 400
    (Some ("Unrecognized id: " +:+ dquote +:+ to_string id +:+ dquote +:+ crlf)).

(** [new HttpError(400, 'Duplicate id: "' + id + '"\r\n')] *)
Definition DuplicateArrival (id : string) : HttpError :=
  new_HttpError 400
    (Some ("Duplicate id: " +:+ dquote +:+ id +:+ dquote +:+ crlf)).

(** ** The server *)

Section server.

(** [config.expected]: for each url, the array of the ids of the clients
    that have to check in there. *)
Variable expected : JsObject.t (list string).

(** Whether a method of a response object raises when it is called.  Node's
    own response objects return normally; the handler is embedded for every
    behaviour of the objects it is handed. *)
Variable raises : Action -> bool.

Definition call (a : Action) : M unit :=
  λ s, (s, [a], if raises a then Throw (EHost a) else Normal tt).

(** [res.statusCode = code]: a property assignment. *)
Definition set_statusCode (res : Handle) (code : Z) : M unit :=
  λ s, (s, [SetStatusCode res code], Normal tt).

(** [checkinStore[url]], the object that the variable [checkins] refers to:
    [checkins[id] = res] updates the object held in [checkinStore]. *)
Definition checkins_at (url : string) : M (JsObject.t Handle) :=
  s ← read_store; mret (default [] (own_get s url)).

(** [checkins[id].end('GO\r\n')] and [checkinStore[url][id].write(...)] *)
Definition on_held (checkins : JsObject.t Handle) (id : string)
    (f : Handle -> Action) : M unit :=
  match get checkins id with
  | Own res => call (f res)
  | _ => throw ETypeError
  end.

(** The body of the [try] block of the ['end'] listener (lines 89-128);
    the value is that of [allCheckedIn]. *)
Definition checkin (req : Request) (res : Handle) : M bool :=
  if negb (String.eqb (method req) "POST")
  then throw (EHttp MethodNotAllowed) else
  match own_get expected (url req) with
  | None => throw (EHttp UnknownGroup)
  | Some expectedIds =>
      if (indexOf expectedIds (id req) =? -1)%Z
      then throw (EHttp (UnrecognizedParticipant (id req)))
      else
        let id := to_string (id req) in
        s ← read_store;
        write_store (set s (url req) (default [] (own_get s (url req))));;
        checkins ← checkins_at (url req);
        if negb (is_undefined checkins id)
        then throw (EHttp (DuplicateArrival id))
        else
          call (WriteHead res 200);;
          s ← read_store;
          write_store (set s (url req) (set checkins id res));;
          checkins ← checkins_at (url req);
          let allCheckedIn :=
            negb (existsb (is_undefined checkins) expectedIds) in
          if allCheckedIn then
            forEach (keys checkins)
              (λ id, on_held checkins id (λ r, End r (Some GO)));;
            s ← read_store;
            write_store (set s (url req) []);;
            mret true
          else mret false
  end.

(** How a request was answered; the listener itself returns nothing. *)
Inductive Reply : Type :=
| Accepted (allCheckedIn : bool)
| Refused (e : HttpError).

(** The ['end'] listener of a request (lines 87-134). *)
Definition on_end (req : Request) (res : Handle) : M Reply :=
  catch_http
    (allCheckedIn ← checkin req res; mret (Accepted allCheckedIn))
    (λ ex,
       set_statusCode res (statusCode ex);;
       call (End res (message ex));;
       mret (Refused ex)).

(** The callback of [setInterval] (lines 145-151). *)
Definition keep_alive : M unit :=
  s ← read_store;
  forEach (keys s) (λ url,
    match get s url with
    | Own checkins =>
        forEach (keys checkins)
          (λ id, on_held checkins id (λ r, Write r HOLD))
    | _ => throw ETypeError
    end).

(** What the event loop delivers.  The source registers no listener for
    the end of a connection (no ['close'] or ['error'] listener on [req],
    [res] or the socket), so that event runs no code of the server. *)
Inductive Event : Type :=
| RequestEnd (req : Request) (res : Handle)
| Interval
| ConnectionClosed (res : Handle).

Definition dispatch (e : Event) : M unit :=
  match e with
  | RequestEnd req res => on_end req res;; mret tt
  | Interval => keep_alive
  | ConnectionClosed _ => mret tt
  end.

(** The events of a run, one listener at a time; an exception that leaves a
    listener ends the process. *)
Fixpoint run (evs : list Event) : M unit :=
  match evs with
  | [] => mret tt
  | e :: evs' => dispatch e;; run evs'
  end.

End server.

(** [var checkinStore = {};] *)
Definition initial : Store := [].

(** ** Configuration (lines 66-78) and the interval of the ticker *)

(** The values of the configuration object. *)
Inductive ConfigValue : Type :=
| VNull
| VNumber (n : Z)
| VString (s : string)
| VExpected (e : JsObject.t (list string)).

(** [var config = { ... }] *)
Definition default_config : JsObject.t ConfigValue :=
  [ ("expected", VExpected [("/", [])]);
    ("hostname", VNull);
    ("keepAliveIntervalMs", VNumber (60 * 1000));
    ("port", VNumber 1337) ].

(** [config[k] = userConfig[k]].  An assignment to [__proto__] creates no
    own property (what it does to the prototype of [config] is left out). *)
Definition copy_key (userConfig config : JsObject.t ConfigValue)
    (k : string) : JsObject.t ConfigValue :=
  match get userConfig k with
  | Own v => if decide (k = "__proto__") then config else set config k v
  | _ => config
  end.

(** Lines 73-78; [userConfig] is [None] when the file cannot be read or
    parsed: the exception is caught and [config] keeps its initial value. *)
Definition load_config (userConfig : option (JsObject.t ConfigValue))
    : JsObject.t ConfigValue :=
  match userConfig with
  | None => default_config
  | Some u => foldl (copy_key u) default_config (keys u)
  end.

(** The second argument of [setInterval] (line 151):
    [config.keepaliveIntervalMs]. *)
Definition interval_argument (config : JsObject.t ConfigValue)
    : lookup ConfigValue :=
  get config "keepaliveIntervalMs".

(** [config.expected], for a configuration of the documented shape. *)
Definition expected_of (config : JsObject.t ConfigValue)
    : option (JsObject.t (list string)) :=
  match get config "expected" with
  | Own (VExpected e) => Some e
  | _ => None
  end.

(** ** Vocabulary of the properties *)

(** The arrived map of a group: [checkinStore[url]], or no entry at all
    before the first valid request to [url]. *)
Definition arrived (s : Store) (url : string) : JsObject.t Handle :=
  default [] (own_get s url).

(** The expected set of a group that is configured. *)
Definition expected_ids (expected : JsObject.t (list string)) (url : string)
    : list string :=
  default [] (own_get expected url).

(** The handles of an arrived map in the order in which
    [Object.keys(checkins).forEach] visits them. *)
Definition release_order (checkins : JsObject.t Handle) : list Handle :=
  omap (own_get checkins) (keys checkins).

(** The [end] calls that an action list makes on [h] with the release
    payload. *)
Definition releases_of (h : Handle) (log : list Action) : nat :=
  length (filter (λ a, a = End h (Some GO)) log).

(** How often a handle is stored in an arrived map. *)
Definition stored (h : Handle) (checkins : JsObject.t Handle) : nat :=
  length (filter (λ v, v = h) checkins.*2).

(** A well-formed object has one own property per key. *)
Definition well_formed {V} (o : JsObject.t V) : Prop := NoDup (own_keys o).

(** The state invariant: every object of [checkinStore] is well formed and
    belongs to a configured url, and its keys are expected ids of that url,
    none of them the name of a member of [Object.prototype]. *)
Definition group_ok (expected : JsObject.t (list string))
    (g : string * JsObject.t Handle) : Prop :=
  well_formed g.2 ∧
  Forall (λ k, inherited k = false) (own_keys g.2) ∧
  match own_get expected g.1 with
  | Some ids => own_keys g.2 ⊆ ids
  | None => False
  end.

Definition Inv (expected : JsObject.t (list string)) (s : Store) : Prop :=
  well_formed s ∧ Forall (group_ok expected) s.

Global Instance group_ok_dec expected g : Decision (group_ok expected g).
Proof. unfold group_ok, well_formed. destruct (own_get expected g.1); apply _. Defined.

Global Instance Inv_dec expected s : Decision (Inv expected s).
Proof. unfold Inv, well_formed. apply _. Defined.

(** The number of elements of a set given as a list. *)
Definition card (l : list string) : nat := length (remove_dups l).

(** No response method raises. *)
Definition quiet : Action -> bool := λ _, false.

(** What a sequence of calls on response objects comes to: the actions
    performed, up to and including the first one that raises, and that one. *)
Fixpoint attempt (raises : Action -> bool) (l : list Action)
    : list Action * option Action :=
  match l with
  | [] => ([], None)
  | a :: l' =>
      if raises a then ([a], Some a)
      else let '(done, r) := attempt raises l' in (a :: done, r)
  end.

(** The release calls of a completed round, in order. *)
Definition release_calls (checkins : JsObject.t Handle) : list Action :=
  (λ r, End r (Some GO)) <$> release_order checkins.

(** What the [catch] block of the listener does with an [HttpError]
    (lines 130-132), from the state in which it was thrown. *)
Definition refusal (raises : Action -> bool) (res : Handle) (e : HttpError)
    (s : Store) : Store * list Action * Completion Reply :=
  (s, [SetStatusCode res (statusCode e); End res (message e)],
   if raises (End res (message e))
   then Throw (EHost (End res (message e)))
   else Normal (Refused e)).

(** The request of the client script: [curl --data "id=$BARRIER_ID" url]. *)
Definition post (url : string) (id : string) : Request :=
  {| method := "POST"; url := url; id := QString id |}.

(** The check-ins of the ids [ks] at [url], in this order, the first one
    with the response object [h]. *)
Fixpoint checkins_of (url : string) (ks : list string) (h : Handle)
    : list Event :=
  match ks with
  | [] => []
  | k :: ks' => RequestEnd (post url k) h :: checkins_of url ks' (S h)
  end.

(** The number of rounds that a run completes: the requests that find
    [allCheckedIn] true. *)
Fixpoint rounds_completed (expected : JsObject.t (list string))
    (raises : Action -> bool) (evs : list Event) (s : Store) : nat :=
  match evs with
  | [] => 0
  | RequestEnd req res :: evs' =>
      match on_end expected raises req res s with
      | (s', _, Normal (Accepted true)) =>
          S (rounds_completed expected raises evs' s')
      | (s', _, Normal _) => rounds_completed expected raises evs' s'
      | (_, _, Throw _) => 0
      end
  | e :: evs' =>
      match dispatch expected raises e s with
      | (s', _, Normal _) => rounds_completed expected raises evs' s'
      | (_, _, Throw _) => 0
      end
  end.


(** [n] rounds of check-ins of the ids [ks] at [url], each request with a
    response object of its own, numbered from [h]. *)
Fixpoint rounds_of (url : string) (ks : list string) (n : nat) (h : Handle)
    : list Event :=
  match n with
  | 0 => []
  | S n' => checkins_of url ks h ++ rounds_of url ks n' (h + length ks)
  end.

(** ** Vocabulary of the further properties *)

(** The response object on which an action is performed. *)
Definition handle_of (a : Action) : Handle :=
  match a with
  | WriteHead r _ | SetStatusCode r _ | Write r _ | End r _ => r
  end.

(** Whether an action is [h.end(...)], with any data. *)
Definition is_end_on (h : Handle) (a : Action) : bool :=
  match a with
  | End r _ => bool_decide (r = h)
  | _ => false
  end.

(** How often an action list ends the response [h]. *)
Definition ends_of (h : Handle) (log : list Action) : nat :=
  length (filter (λ a, is_end_on h a = true) log).

(** The response objects of the requests of a run, in order. *)
Fixpoint responses_of (evs : list Event) : list Handle :=
  match evs with
  | [] => []
  | RequestEnd _ res :: evs' => res :: responses_of evs'
  | _ :: evs' => responses_of evs'
  end.

(** Every handle that [checkinStore] holds, group after group. *)
Definition held_handles (s : Store) : list Handle :=
  g ← s; g.2.*2.

(** The [write] calls of one tick, in the order of the two nested
    [Object.keys(...).forEach] of lines 146-150. *)
Definition tick_calls (s : Store) : list Action :=
  u ← keys s; (λ h, Write h HOLD) <$> release_order (arrived s u).

(** How often a handle occurs in a list of handles. *)
Definition times (h : Handle) (l : list Handle) : nat :=
  length (filter (λ v, v = h) l).

(** Running the handler monad symbolically. *)
Ltac exec :=
  repeat progress unfold catch_http, mbind, M_bind, bind, mret, M_ret, ret,
    throw, read_store, write_store, set_statusCode, checkins_at;
  cbn.

(** * Properties *)

(** ** Objects *)

Section object_facts.
Context {V : Type}.
Implicit Types (o : JsObject.t V) (k : string) (v : V).

Lemma own_get_None o k : own_get o k = None ↔ k ∉ own_keys o.
Proof.
  unfold own_keys. induction o as [|[k' v'] o IH]; simpl.
  - split; [intros _; apply not_elem_of_nil | done].
  - rewrite not_elem_of_cons. destruct (decide (k' = k)) as [->|Hne].
    + split; [done | intros [? _]; done].
    + rewrite IH. split; [intros ?; split; [congruence | done] | tauto].
Qed.

Lemma own_get_Some_elem o k v : own_get o k = Some v → (k, v) ∈ o.
Proof.
  induction o as [|[k' v'] o IH]; simpl; [done |].
  destruct (decide (k' = k)) as [->|Hne].
  - intros [= ->]. apply list_elem_of_here.
  - intros H. apply list_elem_of_further, IH, H.
Qed.

Lemma own_get_is_Some o k : is_Some (own_get o k) ↔ k ∈ own_keys o.
Proof.
  destruct (own_get o k) as [v|] eqn:E.
  - split; [intros _ | eauto].
    destruct (decide (k ∈ own_keys o)) as [|Hn]; [done |].
    apply own_get_None in Hn. congruence.
  - split; [intros [? ?]; done |].
    intros Hin. apply own_get_None in E. done.
Qed.

Lemma elem_own_get o k v : well_formed o → (k, v) ∈ o → own_get o k = Some v.
Proof.
  unfold well_formed, own_keys.
  induction o as [|[k' v'] o IH]; simpl; intros Hnd Hin.
  - by apply elem_of_nil in Hin.
  - apply NoDup_cons in Hnd as [Hk Hnd].
    apply elem_of_cons in Hin as [[= -> ->]|Hin].
    + by rewrite decide_True.
    + rewrite decide_False; [by apply IH |].
      intros ->. apply Hk. apply list_elem_of_fmap. by exists (k, v).
Qed.

Lemma own_get_set_eq o k v : own_get (set o k v) k = Some v.
Proof.
  induction o as [|[k' v'] o IH]; simpl.
  - by rewrite decide_True.
  - destruct (decide (k' = k)) as [->|Hne]; simpl.
    + by rewrite decide_True.
    + by rewrite decide_False.
Qed.

Lemma own_get_set_ne o k k' v : k ≠ k' → own_get (set o k v) k' = own_get o k'.
Proof.
  intros Hne. induction o as [|[k0 v0] o IH]; simpl.
  - by rewrite decide_False.
  - destruct (decide (k0 = k)) as [->|Hne0]; simpl.
    + by rewrite !decide_False.
    + by rewrite IH.
Qed.

Lemma set_fresh o k v : own_get o k = None → set o k v = o ++ [(k, v)].
Proof.
  induction o as [|[k' v'] o IH]; simpl; [done |].
  destruct (decide (k' = k)); [done |]. intros H. by rewrite IH.
Qed.

Lemma set_same o k v : own_get o k = Some v → set o k v = o.
Proof.
  induction o as [|[k' v'] o IH]; simpl; [done |].
  destruct (decide (k' = k)) as [->|Hne].
  - by intros [= ->].
  - intros H. by rewrite IH.
Qed.

Lemma set_set o k v v' : set (set o k v) k v' = set o k v'.
Proof.
  induction o as [|[k' v0] o IH]; simpl.
  - by rewrite decide_True.
  - destruct (decide (k' = k)) as [->|Hne]; simpl.
    + by rewrite decide_True.
    + by rewrite decide_False, IH.
Qed.

Lemma own_keys_set_present o k v :
  is_Some (own_get o k) → own_keys (set o k v) = own_keys o.
Proof.
  unfold own_keys. induction o as [|[k' v'] o IH]; simpl.
  - intros [? ?]; done.
  - destruct (decide (k' = k)) as [->|Hne]; csimpl; [done |].
    intros H. f_equal. by apply IH.
Qed.

Lemma own_keys_set_fresh o k v :
  own_get o k = None → own_keys (set o k v) = own_keys o ++ [k].
Proof.
  intros H. rewrite set_fresh by done. unfold own_keys.
  by rewrite fmap_app.
Qed.

Lemma well_formed_set o k v : well_formed o → well_formed (set o k v).
Proof.
  unfold well_formed. intros Hnd.
  destruct (own_get o k) as [v0|] eqn:E.
  - by rewrite own_keys_set_present by eauto.
  - rewrite own_keys_set_fresh by done.
    apply NoDup_app. split_and!; [done | | apply NoDup_singleton].
    intros x Hx Hx'. apply list_elem_of_singleton in Hx' as ->.
    by apply own_get_None in E.
Qed.

Lemma get_Own o k v : get o k = Own v ↔ own_get o k = Some v.
Proof.
  unfold get. destruct (own_get o k); [| destruct (inherited k)];
    split; congruence.
Qed.

Lemma is_undefined_true o k :
  is_undefined o k = true ↔ own_get o k = None ∧ inherited k = false.
Proof.
  unfold is_undefined, get.
  destruct (own_get o k); [| destruct (inherited k)]; split; try done; intros [? ?]; done.
Qed.

Lemma is_undefined_false_own o k :
  is_Some (own_get o k) → is_undefined o k = false.
Proof. intros [v Hv]. unfold is_undefined, get. by rewrite Hv. Qed.

Lemma keys_order_Permutation (ks : list string) : keys_order ks ≡ₚ ks.
Proof.
  unfold keys_order. rewrite merge_sort_Permutation.
  apply filter_app_complement.
Qed.

Lemma keys_Permutation o : keys o ≡ₚ own_keys o.
Proof. apply keys_order_Permutation. Qed.

Lemma elem_of_keys o k : k ∈ keys o ↔ k ∈ own_keys o.
Proof. by rewrite keys_Permutation. Qed.

Lemma keys_nil : keys (V:=V) [] = [].
Proof. reflexivity. Qed.
End object_facts.

(** ** The handler *)

Lemma bind_run {A B} (m : M A) (f : A → M B) (s : Store) :
  (m ≫= f) s =
    match m s with
    | (s1, l1, Normal a) => let '(s2, l2, c) := f a s1 in (s2, l1 ++ l2, c)
    | (s1, l1, Throw e) => (s1, l1, Throw e)
    end.
Proof. reflexivity. Qed.

Lemma forEach_cons {A} (x : A) (l : list A) (f : A → M unit) :
  forEach (x :: l) f = (f x ≫= λ _, forEach l f).
Proof. reflexivity. Qed.

Section handler_facts.
Variable expected : JsObject.t (list string).
Variable raises : Action -> bool.

Lemma call_run (a : Action) (s : Store) :
  call raises a s =
    (s, [a], if raises a then Throw (EHost a) else Normal tt).
Proof. reflexivity. Qed.

Lemma forEach_calls (l : list Action) (s : Store) :
  forEach l (call raises) s =
    (s, (attempt raises l).1,
     match (attempt raises l).2 with
     | None => Normal tt
     | Some a => Throw (EHost a)
     end).
Proof.
  induction l as [|a l IH]; [done |].
  rewrite forEach_cons, bind_run, call_run. simpl attempt.
  destruct (raises a) eqn:Ha; [done |].
  rewrite IH. by destruct (attempt raises l).
Qed.

Lemma forEach_on_held (c : JsObject.t Handle) (f : Handle -> Action)
    (ks : list string) (s : Store) :
  ks ⊆ own_keys c →
  forEach ks (λ id, on_held raises c id f) s =
    forEach (f <$> omap (own_get c) ks) (call raises) s.
Proof.
  induction ks as [|k ks IH]; intros Hks; [done |].
  assert (k ∈ own_keys c) as Hk by (apply Hks; left).
  apply own_get_is_Some in Hk as [h Hh].
  rewrite forEach_cons, bind_run.
  replace (f <$> omap (own_get c) (k :: ks)) with (f h :: (f <$> omap (own_get c) ks))
    by (simpl omap; by rewrite Hh).
  rewrite forEach_cons, bind_run.
  unfold on_held at 1. rewrite (proj2 (get_Own c k h) Hh).
  rewrite !call_run. destruct (raises (f h)); [done |].
  rewrite IH; [done |]. intros x Hx. apply Hks. by right.
Qed.

(** The release loop of line 125, as a sequence of calls. *)
Lemma release_loop (c : JsObject.t Handle) (s : Store) :
  forEach (keys c) (λ id, on_held raises c id (λ r, End r (Some GO))) s =
    (s, (attempt raises (release_calls c)).1,
     match (attempt raises (release_calls c)).2 with
     | None => Normal tt
     | Some a => Throw (EHost a)
     end).
Proof.
  rewrite forEach_on_held; [apply forEach_calls |].
  intros k. apply elem_of_keys.
Qed.
End handler_facts.

Section on_end_facts.
Variable expected : JsObject.t (list string).
Variable raises : Action -> bool.

Local Abbreviation on_end := (on_end expected raises).
Local Arguments is_undefined : simpl never.
Local Arguments existsb : simpl never.
Local Arguments arrived : simpl never.
Local Arguments on_held : simpl never.
Local Arguments keys : simpl never.
Local Arguments GO : simpl never.

Local Abbreviation refusal := (refusal raises).

Lemma on_end_not_post req res s :
  method req ≠ "POST" →
  on_end req res s = refusal res MethodNotAllowed s.
Proof.
  intros Hm. unfold on_end, checkin.
  rewrite (proj2 (String.eqb_neq _ _) Hm). exec.
  unfold refusal, call. by destruct (raises _).
Qed.

Lemma on_end_unknown_group req res s :
  method req = "POST" →
  own_get expected (url req) = None →
  on_end req res s = refusal res UnknownGroup s.
Proof.
  intros Hm He. unfold on_end, checkin.
  rewrite (proj2 (String.eqb_eq _ _) Hm), He. exec.
  unfold refusal, call. by destruct (raises _).
Qed.

Lemma on_end_unrecognized req res s ids :
  method req = "POST" →
  own_get expected (url req) = Some ids →
  indexOf ids (id req) = (-1)%Z →
  on_end req res s = refusal res (UnrecognizedParticipant (id req)) s.
Proof.
  intros Hm He Hi. unfold on_end, checkin.
  rewrite (proj2 (String.eqb_eq _ _) Hm), He, Hi. exec.
  unfold refusal, call. by destruct (raises _).
Qed.

Lemma on_end_duplicate req res s ids :
  method req = "POST" →
  own_get expected (url req) = Some ids →
  indexOf ids (id req) ≠ (-1)%Z →
  is_undefined (arrived s (url req)) (to_string (id req)) = false →
  on_end req res s =
    refusal res (DuplicateArrival (to_string (id req)))
      (set s (url req) (arrived s (url req))).
Proof.
  unfold arrived. intros Hm He Hi Hu. unfold on_end, checkin.
  rewrite (proj2 (String.eqb_eq _ _) Hm), He.
  rewrite (proj2 (Z.eqb_neq _ _) Hi). exec.
  rewrite own_get_set_eq. cbn. rewrite Hu. exec.
  unfold refusal, call. by destruct (raises _).
Qed.

Lemma on_end_accept req res s ids :
  method req = "POST" →
  own_get expected (url req) = Some ids →
  indexOf ids (id req) ≠ (-1)%Z →
  is_undefined (arrived s (url req)) (to_string (id req)) = true →
  on_end req res s =
    let c := set (arrived s (url req)) (to_string (id req)) res in
    if raises (WriteHead res 200)
    then (set s (url req) (arrived s (url req)), [WriteHead res 200],
          Throw (EHost (WriteHead res 200)))
    else if existsb (is_undefined c) ids
    then (set s (url req) c, [WriteHead res 200], Normal (Accepted false))
    else match (attempt raises (release_calls c)).2 with
         | None =>
             (set s (url req) [],
              WriteHead res 200 :: (attempt raises (release_calls c)).1,
              Normal (Accepted true))
         | Some a =>
             (set s (url req) c,
              WriteHead res 200 :: (attempt raises (release_calls c)).1,
              Throw (EHost a))
         end.
Proof.
  unfold arrived. intros Hm He Hi Hu. unfold on_end, checkin.
  rewrite (proj2 (String.eqb_eq _ _) Hm), He.
  rewrite (proj2 (Z.eqb_neq _ _) Hi). exec.
  rewrite own_get_set_eq. cbn. rewrite Hu. exec.
  destruct (raises (WriteHead res 200)); [done |].
  rewrite set_set, own_get_set_eq. cbn.
  destruct (existsb _ ids); cbn [negb]; [done |].
  rewrite release_loop.
  destruct (attempt raises _) as [l [a|]]; cbn; [done |].
  by rewrite set_set, !app_nil_r.
Qed.
End on_end_facts.

(** ** Membership, call sequences and the release order *)

Lemma index_from_ge (l : list string) (k : string) (i : Z) :
  (0 <= i)%Z → index_from l k i = (-1)%Z ∨ (i <= index_from l k i)%Z.
Proof.
  revert i. induction l as [|x l IH]; intros i Hi; simpl; [by left |].
  destruct (decide (x = k)); [right; lia |].
  destruct (IH (i + 1)%Z) as [->|?]; [lia | by left | right; lia].
Qed.

Lemma index_from_missing (l : list string) (k : string) (i : Z) :
  (0 <= i)%Z → index_from l k i = (-1)%Z ↔ k ∉ l.
Proof.
  revert i. induction l as [|x l IH]; intros i Hi; simpl.
  - split; [intros _; apply not_elem_of_nil | done].
  - rewrite not_elem_of_cons. destruct (decide (x = k)) as [->|Hne].
    + split; [lia | intros [? _]; done].
    + rewrite IH by lia. split; [intros ?; split; [congruence | done] | tauto].
Qed.

Lemma indexOf_found (ids : list string) (k : string) :
  indexOf ids (QString k) ≠ (-1)%Z ↔ k ∈ ids.
Proof.
  unfold indexOf. rewrite index_from_missing by lia.
  split; [apply dec_stable | tauto].
Qed.

Lemma indexOf_missing (ids : list string) (v : QsValue) :
  indexOf ids v = (-1)%Z ↔ ∀ k, v = QString k → k ∉ ids.
Proof.
  destruct v as [|k|l]; simpl.
  - split; [intros _ k; discriminate | done].
  - rewrite index_from_missing by lia.
    split; [by intros ? ? [= <-] | eauto].
  - split; [intros _ k; discriminate | done].
Qed.

Section attempt_facts.
Variable raises : Action -> bool.

Lemma attempt_quiet (l : list Action) :
  Forall (λ a, raises a = false) l → attempt raises l = (l, None).
Proof.
  induction 1 as [|a l Ha _ IH]; simpl; [done |]. by rewrite Ha, IH.
Qed.

Lemma attempt_raise (pre post : list Action) (a : Action) :
  Forall (λ x, raises x = false) pre → raises a = true →
  attempt raises (pre ++ a :: post) = (pre ++ [a], Some a).
Proof.
  intros Hpre Ha. induction Hpre as [|x pre Hx _ IH]; simpl.
  - by rewrite Ha.
  - by rewrite Hx, IH.
Qed.

Lemma attempt_None (l : list Action) :
  (attempt raises l).2 = None →
  (attempt raises l).1 = l ∧ Forall (λ a, raises a = false) l.
Proof.
  induction l as [|a l IH]; simpl; [done |].
  destruct (raises a) eqn:Ha; [done |].
  destruct (attempt raises l) as [d r]; simpl in *.
  intros Hr. destruct (IH Hr) as [-> ?]. by split; [| constructor].
Qed.
End attempt_facts.

Lemma attempt_quiet_all (l : list Action) : attempt quiet l = (l, None).
Proof. apply attempt_quiet, Forall_forall. done. Qed.

Lemma omap_own_get_keys (c : JsObject.t Handle) :
  well_formed c → omap (own_get c) (own_keys c) = c.*2.
Proof.
  intros Hwf.
  assert (∀ l, l ⊆ c → omap (own_get c) l.*1 = l.*2) as H.
  { induction l as [|[k h] l IH]; intros Hl; [done |]. csimpl.
    rewrite (elem_own_get c k h Hwf) by (apply Hl; left).
    f_equal. apply IH. intros x Hx. apply Hl. by right. }
  by apply H.
Qed.

Lemma release_order_Permutation (c : JsObject.t Handle) :
  well_formed c → release_order c ≡ₚ c.*2.
Proof.
  intros Hwf. unfold release_order.
  rewrite (keys_Permutation c). by rewrite omap_own_get_keys.
Qed.

Lemma releases_of_release_calls (h : Handle) (c : JsObject.t Handle) :
  well_formed c → releases_of h (release_calls c) = stored h c.
Proof.
  intros Hwf. unfold releases_of, stored, release_calls.
  rewrite <- (release_order_Permutation c Hwf).
  induction (release_order c) as [|x l IH]; [done |]. csimpl.
  rewrite !filter_cons. destruct (decide (x = h)) as [->|Hne].
  - rewrite decide_True by done. simpl. by rewrite IH.
  - rewrite decide_False by congruence. done.
Qed.

Lemma stored_once (h : Handle) (c : JsObject.t Handle) :
  NoDup c.*2 → h ∈ c.*2 → stored h c = 1.
Proof.
  unfold stored. induction c.*2 as [|x l IH]; intros Hnd Hin.
  - by apply elem_of_nil in Hin.
  - apply NoDup_cons in Hnd as [Hx Hnd]. rewrite filter_cons.
    destruct (decide (x = h)) as [->|Hne]; simpl.
    + f_equal. destruct (filter _ l) as [|y l'] eqn:E; [done |].
      assert (y ∈ filter (λ v, v = h) l) as Hy by (rewrite E; left).
      apply list_elem_of_filter in Hy as [-> Hy]. done.
    + apply elem_of_cons in Hin as [->|Hin]; [done |]. by apply IH.
Qed.

(** ** The state invariant *)

Lemma forEach_store {A} (l : list A) (f : A → M unit) (s : Store) :
  (∀ x s, (f x s).1.1 = s) → (forEach l f s).1.1 = s.
Proof.
  intros Hf. induction l as [|x l IH]; [done |].
  rewrite forEach_cons, bind_run. specialize (Hf x s).
  destruct (f x s) as [[s1 l1] [[]|e]]; simpl in Hf; subst s1; [| done].
  destruct (forEach l f s) as [[s2 l2] c]. done.
Qed.

Lemma on_held_store raises c k f (s : Store) :
  (on_held raises c k f s).1.1 = s.
Proof. unfold on_held. by destruct (get c k). Qed.

Lemma keep_alive_store raises (s : Store) : (keep_alive raises s).1.1 = s.
Proof.
  unfold keep_alive. rewrite bind_run. cbn [read_store].
  pose proof (forEach_store (keys s)
    (λ url, match get s url with
            | Own checkins =>
                forEach (keys checkins)
                  (λ id, on_held raises checkins id (λ r, Write r HOLD))
            | _ => throw ETypeError
            end) s) as H.
  destruct (forEach _ _ s) as [[s2 l2] c]. apply H.
  intros u s0. destruct (get s u); [done | | done].
  apply forEach_store. intros. apply on_held_store.
Qed.

Section invariant.
Variable expected : JsObject.t (list string).
Variable raises : Action -> bool.

Lemma Forall_set {V} (P : string * V → Prop) (o : JsObject.t V) k v :
  Forall P o → P (k, v) → Forall P (set o k v).
Proof.
  intros Ho Hv. induction Ho as [|[k' v'] o Hx Ho IH]; simpl.
  - by constructor.
  - destruct (decide (k' = k)); by constructor.
Qed.

Lemma Inv_set s u c :
  Inv expected s → group_ok expected (u, c) → Inv expected (set s u c).
Proof.
  intros [Hwf Hall] Hg. split; [by apply well_formed_set |].
  by apply Forall_set.
Qed.

Lemma group_ok_empty u ids :
  own_get expected u = Some ids → group_ok expected (u, []).
Proof.
  intros He. unfold group_ok, well_formed. simpl. rewrite He.
  split_and!; [constructor | constructor |]. intros x Hx.
  by apply elem_of_nil in Hx.
Qed.

Lemma Inv_arrived s u ids :
  Inv expected s → own_get expected u = Some ids →
  group_ok expected (u, arrived s u).
Proof.
  intros [_ Hall] He. unfold arrived.
  destruct (own_get s u) as [c|] eqn:E; simpl.
  - apply own_get_Some_elem in E.
    by apply (proj1 (Forall_forall _ _) Hall) in E.
  - by apply group_ok_empty with ids.
Qed.

Lemma group_ok_checkin u c ids k res :
  group_ok expected (u, c) → own_get expected u = Some ids →
  k ∈ ids → is_undefined c k = true →
  group_ok expected (u, set c k res).
Proof.
  unfold group_ok. simpl. intros (Hwf & Hni & Hsub) He Hk Hu.
  rewrite He in *. apply is_undefined_true in Hu as [Hnone Hinh].
  split_and!.
  - by apply well_formed_set.
  - rewrite own_keys_set_fresh by done. apply Forall_app. split; [done |].
    by constructor.
  - rewrite own_keys_set_fresh by done. intros x Hx.
    apply elem_of_app in Hx as [Hx|Hx]; [by apply Hsub |].
    by apply list_elem_of_singleton in Hx as ->.
Qed.

Lemma Inv_on_end s req res :
  Inv expected s → Inv expected (on_end expected raises req res s).1.1.
Proof.
  intros HI.
  destruct (decide (method req = "POST")) as [Hm|Hm];
    [| by rewrite on_end_not_post].
  destruct (own_get expected (url req)) as [ids|] eqn:He;
    [| by rewrite on_end_unknown_group].
  destruct (decide (indexOf ids (id req) = (-1)%Z)) as [Hi|Hi];
    [by rewrite (on_end_unrecognized _ _ _ _ _ ids) |].
  pose proof (Inv_arrived s (url req) ids HI He) as Hg.
  destruct (is_undefined (arrived s (url req)) (to_string (id req))) eqn:Hu.
  - rewrite (on_end_accept _ _ _ _ _ ids) by done. cbn zeta.
    assert (group_ok expected
      (url req, set (arrived s (url req)) (to_string (id req)) res)) as Hg'.
    { apply group_ok_checkin with ids; try done.
      destruct (id req) as [|k|l]; try done. by apply indexOf_found. }
    destruct (raises (WriteHead res 200)); [by apply Inv_set |].
    destruct (existsb _ ids); [by apply Inv_set |].
    destruct (attempt raises _) as [d [a|]]; simpl.
    + by apply Inv_set.
    + apply Inv_set; [done |]. by apply group_ok_empty with ids.
  - rewrite (on_end_duplicate _ _ _ _ _ ids) by done. by apply Inv_set.
Qed.

Lemma Inv_dispatch s e :
  Inv expected s → Inv expected (dispatch expected raises e s).1.1.
Proof.
  intros HI. destruct e as [req res| |h]; simpl.
  - rewrite bind_run. pose proof (Inv_on_end s req res HI) as H.
    by destruct (on_end expected raises req res s) as [[s1 l1] [r|e]].
  - by rewrite keep_alive_store.
  - done.
Qed.

Lemma Inv_run evs s :
  Inv expected s → Inv expected (run expected raises evs s).1.1.
Proof.
  revert s. induction evs as [|e evs IH]; intros s HI; [done |].
  simpl. rewrite bind_run. pose proof (Inv_dispatch s e HI) as H.
  destruct (dispatch expected raises e s) as [[s1 l1] [[]|x]]; [| done].
  specialize (IH s1 H).
  by destruct (run expected raises evs s1) as [[s2 l2] c].
Qed.

Lemma Inv_initial : Inv expected initial.
Proof. split; constructor. Qed.

Lemma Inv_bounds s u :
  Inv expected s →
  own_keys (arrived s u) ⊆ expected_ids expected u ∧
  (length (own_keys (arrived s u)) ≤ card (expected_ids expected u))%nat.
Proof.
  intros [_ Hall]. unfold arrived, expected_ids, card.
  destruct (own_get s u) as [c|] eqn:E; simpl;
    [| split; [intros x Hx; by apply elem_of_nil in Hx | lia]].
  apply own_get_Some_elem in E.
  apply (proj1 (Forall_forall _ _) Hall) in E as (Hwf & _ & Hsub).
  simpl in *. destruct (own_get expected u) as [ids|]; [| done]. simpl.
  split; [done |]. apply submseteq_length, NoDup_submseteq; [done |].
  intros x Hx. apply elem_of_remove_dups. by apply Hsub.
Qed.
End invariant.

(** * The claims *)

(** ** Requests that are not check-ins *)

(** C10: a request whose method is not POST is answered with status 405 and
    nothing else happens: the [try] block throws at its first statement, so
    the answer is the same whatever the url, the body and the configuration
    are, and [checkinStore] is left as it was. *)
Theorem C10_not_post_is_405 (expected : JsObject.t (list string))
    (raises : Action → bool) (req : Request) (res : Handle) (s : Store) :
  method req ≠ "POST" →
  checkin expected raises req res s = (s, [], Throw (EHttp MethodNotAllowed))
  ∧ statusCode MethodNotAllowed = 405%Z
  ∧ (on_end expected raises req res s).1 =
      (s, [SetStatusCode res 405; End res None])
  ∧ ∀ u, arrived (on_end expected raises req res s).1.1 u = arrived s u.
Proof.
  intros Hm. rewrite on_end_not_post by done. split_and!; try done.
  unfold checkin. by rewrite (proj2 (String.eqb_neq _ _) Hm).
Qed.

Lemma C10_not_post_is_405_witness :
  let req := {| method := "GET"; url := "/"; id := QString "h1" |} in
  let s := [("/", [("h2", 4)])] in
  (on_end [("/", ["h1"; "h2"])] quiet req 7 s).1 =
    (s, [SetStatusCode 7 405; End 7 None]).
Proof.
  intros req s.
  apply (C10_not_post_is_405 [("/", ["h1"; "h2"])] quiet req 7 s).
  discriminate.
Defined.

(** ** Rejected check-ins *)

(** C5: a check-in at a configured url whose id is not among the expected
    ids of that url throws [UnrecognizedParticipant] (status 400, the message
    names the id) and leaves [checkinStore] exactly as it was. *)
Theorem C5_unrecognized_id (expected : JsObject.t (list string))
    (raises : Action → bool) (req : Request) (res : Handle) (s : Store)
    (ids : list string) :
  method req = "POST" →
  own_get expected (url req) = Some ids →
  (∀ k, id req = QString k → k ∉ ids) →
  checkin expected raises req res s =
    (s, [], Throw (EHttp (UnrecognizedParticipant (id req))))
  ∧ on_end expected raises req res s =
      refusal raises res (UnrecognizedParticipant (id req)) s
  ∧ (on_end expected raises req res s).1.1 = s.
Proof.
  intros Hm He Hk. apply indexOf_missing in Hk.
  rewrite (on_end_unrecognized _ _ _ _ _ ids) by done.
  split_and!; try done.
  unfold checkin. by rewrite (proj2 (String.eqb_eq _ _) Hm), He, Hk.
Qed.

Lemma C5_unrecognized_id_witness :
  let s := [("/", [("h1", 1)])] in
  (on_end [("/", ["h1"; "h2"])] quiet (post "/" "h3") 3 s).1.1 = s.
Proof.
  intros s.
  apply (C5_unrecognized_id [("/", ["h1"; "h2"])] quiet (post "/" "h3") 3 s
           ["h1"; "h2"]).
  - reflexivity.
  - reflexivity.
  - intros k [= <-]. apply (bool_decide_unpack _). vm_compute. exact I.
Defined.

Lemma DuplicateArrival_not_GO (k : string) (res h : Handle) :
  End res (message (DuplicateArrival k)) ≠ End h (Some GO).
Proof. discriminate. Qed.

Lemma arrived_set_same (s : Store) (u : string) (k : string) (h : Handle) :
  own_get (arrived s u) k = Some h → set s u (arrived s u) = s.
Proof.
  unfold arrived. destruct (own_get s u) as [c|] eqn:E; simpl; [| done].
  intros _. by apply set_same.
Qed.

Lemma held_once {V} (c : JsObject.t V) (k : string) :
  well_formed c → k ∈ own_keys c →
  length (filter (λ p, p.1 = k) c) = 1.
Proof.
  unfold well_formed, own_keys.
  induction c as [|[k' v] c IH]; csimpl; intros Hnd Hin.
  - by apply elem_of_nil in Hin.
  - apply NoDup_cons in Hnd as [Hk Hnd]. rewrite filter_cons. simpl.
    destruct (decide (k' = k)) as [->|Hne]; simpl.
    + f_equal. destruct (filter _ c) as [|[k2 v2] l] eqn:E; [done |].
      assert ((k2, v2) ∈ filter (λ p : string * V, p.1 = k) c) as Hy
        by (rewrite E; left).
      apply list_elem_of_filter in Hy as [Heq Hy]. simpl in Heq. subst k2.
      destruct Hk. apply list_elem_of_fmap. by exists (k, v2).
    + apply elem_of_cons in Hin as [->|Hin]; [done |]. by apply IH.
Qed.

(** C6: when the id of a check-in already has an entry in the arrived map of
    its group, the check-in throws [DuplicateArrival] (status 400);
    [checkinStore] is left exactly as it was, so the handle stored first is
    still the one stored under the id, it receives no release call, and the
    id has one entry. *)
Theorem C6_duplicate_id (expected : JsObject.t (list string))
    (raises : Action → bool) (u k : string) (res h0 : Handle) (s : Store) :
  Inv expected s →
  own_get (arrived s u) k = Some h0 →
  let r := on_end expected raises (post u k) res s in
  checkin expected raises (post u k) res s =
    (s, [], Throw (EHttp (DuplicateArrival k)))
  ∧ r = refusal raises res (DuplicateArrival k) s
  ∧ r.1.1 = s
  ∧ own_get (arrived r.1.1 u) k = Some h0
  ∧ releases_of h0 r.1.2 = 0
  ∧ length (filter (λ p, p.1 = k) (arrived r.1.1 u)) = 1.
Proof.
  intros HI Hk r.
  assert (is_Some (own_get s u)) as [c Hc].
  { unfold arrived in Hk. destruct (own_get s u); [eauto | done]. }
  pose proof HI as [_ Hall].
  pose proof (own_get_Some_elem _ _ _ Hc) as Hin.
  apply (proj1 (Forall_forall _ _) Hall) in Hin as (Hwf & _ & Hsub).
  simpl in Hwf, Hsub.
  destruct (own_get expected u) as [ids|] eqn:He; [| done].
  assert (arrived s u = c) as Ha by (unfold arrived; by rewrite Hc).
  assert (k ∈ own_keys c) as Hkc.
  { apply own_get_is_Some. rewrite <- Ha. eauto. }
  assert (is_undefined (arrived s u) k = false) as Hu
    by (apply is_undefined_false_own; eauto).
  assert (r = refusal raises res (DuplicateArrival k) s) as Hr.
  { unfold r. rewrite (on_end_duplicate _ _ _ _ _ ids); try done.
    - simpl. by rewrite (arrived_set_same s u k h0).
    - apply indexOf_found. by apply Hsub. }
  rewrite Hr. simpl. split_and!; try done.
  - unfold checkin, post. cbn [method url id to_string].
    rewrite String.eqb_refl, He. cbn [negb].
    assert (indexOf ids (QString k) ≠ (-1)%Z) as Hi
      by (apply indexOf_found; by apply Hsub).
    rewrite (proj2 (Z.eqb_neq _ _) Hi). exec.
    rewrite Hc. cbn. rewrite (set_same s u c Hc), Hc. cbn.
    rewrite <- Ha, Hu. done.
  - unfold releases_of. rewrite !filter_cons.
    rewrite decide_False by discriminate.
    rewrite decide_False by apply DuplicateArrival_not_GO. done.
  - rewrite Ha. by apply held_once.
Qed.

Lemma C6_duplicate_id_witness :
  let s := [("/", [("h1", 1)])] in
  let r := on_end [("/", ["h1"; "h2"])] quiet (post "/" "h1") 2 s in
  checkin [("/", ["h1"; "h2"])] quiet (post "/" "h1") 2 s =
    (s, [], Throw (EHttp (DuplicateArrival "h1")))
  ∧ r = refusal quiet 2 (DuplicateArrival "h1") s
  ∧ r.1.1 = s
  ∧ own_get (arrived r.1.1 "/") "h1" = Some 1
  ∧ releases_of 1 r.1.2 = 0
  ∧ length (filter (λ p, p.1 = "h1") (arrived r.1.1 "/")) = 1.
Proof.
  apply (C6_duplicate_id [("/", ["h1"; "h2"])] quiet "/" "h1" 2 1
           [("/", [("h1", 1)])]).
  - apply (bool_decide_unpack _). vm_compute. exact I.
  - reflexivity.
Defined.

(** ** The invariant *)

(** C2: in every state that the server reaches from [checkinStore = {}],
    by any sequence of requests, ticks and closed connections and whatever
    the response objects do, the keys of the arrived map of every group are
    expected ids of that group, and no more of them than there are expected
    ids; every request, accepted or refused, keeps it so. *)
Theorem C2_arrived_within_expected (expected : JsObject.t (list string))
    (raises : Action → bool) (evs : list Event) (u : string) :
  let s := (run expected raises evs initial).1.1 in
  (own_keys (arrived s u) ⊆ expected_ids expected u
   ∧ (length (own_keys (arrived s u)) ≤ card (expected_ids expected u))%nat)
  ∧ ∀ req res,
      let s' := (on_end expected raises req res s).1.1 in
      own_keys (arrived s' u) ⊆ expected_ids expected u
      ∧ (length (own_keys (arrived s' u))
           ≤ card (expected_ids expected u))%nat.
Proof.
  intros s.
  assert (Inv expected s) as HI by apply Inv_run, Inv_initial.
  split; [by apply Inv_bounds |].
  intros req res s'. apply Inv_bounds. by apply Inv_on_end.
Qed.

(** ** The release of a completed round *)

Lemma arrived_set (s : Store) (u : string) (c : JsObject.t Handle) :
  arrived (set s u c) u = c.
Proof. unfold arrived. by rewrite own_get_set_eq. Qed.

Lemma arrived_set_ne (s : Store) (u u' : string) (c : JsObject.t Handle) :
  u ≠ u' → arrived (set s u c) u' = arrived s u'.
Proof. intros Hne. unfold arrived. by rewrite own_get_set_ne. Qed.

Lemma releases_of_cons_other (h : Handle) (a : Action) (log : list Action) :
  a ≠ End h (Some GO) → releases_of h (a :: log) = releases_of h log.
Proof.
  intros Hne. unfold releases_of. rewrite filter_cons.
  by rewrite decide_False.
Qed.

Lemma complete_when_all_own (c : JsObject.t Handle) (ids : list string) :
  (∀ x, x ∈ ids → x ∈ own_keys c ∨ inherited x = true) →
  existsb (is_undefined c) ids = false.
Proof.
  intros Hall. destruct (existsb _ ids) eqn:E; [| done].
  apply existsb_exists in E as (x & Hx & Hu).
  apply list_elem_of_In in Hx. apply is_undefined_true in Hu as [Hn Hi].
  destruct (Hall x Hx) as [Hin|Hin]; [| congruence].
  by apply own_get_None in Hn.
Qed.

(** C1: when the check-in of the last expected id that had not arrived
    succeeds, the listener finds [allCheckedIn] true; after the head of the
    new response, its actions are one [end('GO\r\n')] per entry of the
    arrived map (the new entry included) and nothing else, so each handle
    held receives exactly one release call, all with the same payload; the
    arrived map of the group is then empty. *)
Theorem C1_last_checkin_releases_all (expected : JsObject.t (list string))
    (raises : Action → bool) (u k : string) (res : Handle) (s s' : Store)
    (ids : list string) (log : list Action) (allCheckedIn : bool) :
  Inv expected s →
  own_get expected u = Some ids →
  k ∉ own_keys (arrived s u) →
  (∀ x, x ∈ ids ↔ x = k ∨ x ∈ own_keys (arrived s u)) →
  NoDup (set (arrived s u) k res).*2 →
  on_end expected raises (post u k) res s =
    (s', log, Normal (Accepted allCheckedIn)) →
  let held := set (arrived s u) k res in
  allCheckedIn = true
  ∧ log = WriteHead res 200 :: release_calls held
  ∧ (∀ h, h ∈ held.*2 → releases_of h log = 1)
  ∧ (∀ h d, End h d ∈ log → d = Some GO ∧ h ∈ held.*2)
  ∧ arrived s' u = [].
Proof.
  intros HI He Hk Hlast Hnd Hrun held.
  assert (k ∈ ids) as Hkin by (apply Hlast; by left).
  assert (indexOf ids (id (post u k)) ≠ (-1)%Z) as Hi
    by by apply indexOf_found.
  pose proof (Inv_arrived expected s u ids HI He) as (Hwf & _ & _).
  simpl in Hwf.
  destruct (is_undefined (arrived s u) k) eqn:Hu.
  2:{ rewrite (on_end_duplicate _ _ _ _ _ ids) in Hrun by done.
      unfold refusal in Hrun. by destruct (raises _). }
  rewrite (on_end_accept _ _ _ _ _ ids) in Hrun by done.
  cbn [url id post to_string] in Hrun. cbn zeta in Hrun. fold held in Hrun.
  destruct (raises (WriteHead res 200)); [done |].
  assert (own_keys held = own_keys (arrived s u) ++ [k]) as Hkeys
    by (apply own_keys_set_fresh; by apply own_get_None).
  rewrite complete_when_all_own in Hrun.
  2:{ intros x Hx. left. rewrite Hkeys. apply elem_of_app.
      apply Hlast in Hx as [->|Hx]; [right; by left | by left]. }
  destruct (attempt raises (release_calls held)) as [d [a|]] eqn:Ea;
    simpl in Hrun; [done |].
  injection Hrun as <- <- <-.
  assert (d = release_calls held) as ->.
  { pose proof (attempt_None raises (release_calls held)) as H.
    rewrite Ea in H. by destruct (H eq_refl). }
  assert (well_formed held) as Hwf' by by apply well_formed_set.
  split_and!; try done.
  - intros h Hh. rewrite releases_of_cons_other by done.
    rewrite releases_of_release_calls by done. by apply stored_once.
  - intros h d Hin. apply elem_of_cons in Hin as [|Hin]; [done |].
    apply list_elem_of_fmap in Hin as (r & [= -> ->] & Hr).
    split; [done |]. by rewrite <- (release_order_Permutation held Hwf').
  - apply arrived_set.
Qed.

Lemma C1_last_checkin_releases_all_witness :
  let expected := [("/", ["h1"; "h2"])] in
  let s := [("/", [("h1", 1)])] in
  let log := [WriteHead 2 200; End 1 (Some GO); End 2 (Some GO)] in
  on_end expected quiet (post "/" "h2") 2 s =
    ([("/", [])], log, Normal (Accepted true))
  ∧ (∀ h, h ∈ [1; 2] → releases_of h log = 1)
  ∧ arrived [("/", [])] "/" = [].
Proof.
  intros expected s log.
  assert (on_end expected quiet (post "/" "h2") 2 s =
            ([("/", [])], log, Normal (Accepted true))) as Hrun
    by (vm_compute; reflexivity).
  split; [exact Hrun |].
  assert (Inv expected s) as HI
    by (apply (bool_decide_unpack _); vm_compute; exact I).
  assert (own_get expected "/" = Some ["h1"; "h2"]) as He by reflexivity.
  assert ("h2" ∉ own_keys (arrived s "/")) as Hk
    by (apply (bool_decide_unpack _); vm_compute; exact I).
  assert (∀ x, x ∈ ["h1"; "h2"] ↔ x = "h2" ∨ x ∈ own_keys (arrived s "/"))
    as Hlast.
  { intros x. vm_compute own_keys. rewrite !elem_of_cons, elem_of_nil. tauto. }
  assert (NoDup (set (arrived s "/") "h2" 2).*2) as Hnd
    by (apply (bool_decide_unpack _); vm_compute; exact I).
  destruct (C1_last_checkin_releases_all expected quiet "/" "h2" 2 s
              [("/", [])] ["h1"; "h2"] log true HI He Hk Hlast Hnd Hrun)
    as (_ & _ & Hone & _ & Hempty).
  split; [exact Hone | exact Hempty].
Defined.




(** ** The interval of the keep-alive ticker *)

Lemma foldl_copy_key_other (u : JsObject.t ConfigValue) (ks : list string)
    (config : JsObject.t ConfigValue) (k : string) :
  k ∉ ks →
  own_get (foldl (copy_key u) config ks) k = own_get config k.
Proof.
  revert config. induction ks as [|x ks IH]; intros config Hk; [done |].
  apply not_elem_of_cons in Hk as [Hne Hk]. simpl. rewrite IH by done.
  unfold copy_key. destruct (get u x); try done.
  destruct (decide (x = "__proto__")); [done |].
  by apply own_get_set_ne.
Qed.

(** The argument of [setInterval] is [undefined] for every configuration
    file that has no key spelled [keepaliveIntervalMs], also when it sets
    [keepAliveIntervalMs]. *)
Lemma interval_argument_undefined (userConfig : JsObject.t ConfigValue) :
  own_get userConfig "keepaliveIntervalMs" = None →
  interval_argument (load_config (Some userConfig)) = Undefined.
Proof.
  intros Hu. unfold interval_argument, load_config, get.
  rewrite foldl_copy_key_other; [done |].
  rewrite elem_of_keys. by apply own_get_None.
Qed.

(** C4, at the failing inputs: without a configuration file, and with one
    that sets [keepAliveIntervalMs] to 30 seconds, the configuration object
    holds the interval under [keepAliveIntervalMs] (60000 by default), but
    the ticker is started with [config.keepaliveIntervalMs], which is
    [undefined]. *)
Theorem C4_interval_not_read_from_configuration :
  get (load_config None) "keepAliveIntervalMs" = Own (VNumber 60000)
  ∧ interval_argument (load_config None) = Undefined
  ∧ get (load_config (Some [("keepAliveIntervalMs", VNumber 30000)]))
      "keepAliveIntervalMs" = Own (VNumber 30000)
  ∧ interval_argument
      (load_config (Some [("keepAliveIntervalMs", VNumber 30000)]))
    = Undefined.
Proof. split_and!; reflexivity. Qed.

(** ** What removes an entry *)

Lemma own_get_arrived_set_fresh (s : Store) (u u' k k' : string)
    (res : Handle) :
  own_get (arrived s u) k = None →
  is_Some (own_get (arrived s u') k') →
  own_get (arrived (set s u (set (arrived s u) k res)) u') k' =
    own_get (arrived s u') k'.
Proof.
  intros Hfresh Hsome. destruct (decide (u = u')) as [<-|Hne].
  - rewrite arrived_set. apply own_get_set_ne. intros <-.
    rewrite Hfresh in Hsome. by destruct Hsome.
  - by rewrite arrived_set_ne.
Qed.

Lemma arrived_set_arrived (s : Store) (u u' : string) :
  arrived (set s u (arrived s u)) u' = arrived s u'.
Proof.
  destruct (decide (u = u')) as [<-|Hne];
    [apply arrived_set | by apply arrived_set_ne].
Qed.

(** C8, as the code has it: an entry leaves an arrived map only when a
    check-in at its url completes the round, which empties the map; a tick
    removes nothing, and neither does the end of a connection, for which the
    server runs no code: [checkinStore] is then what it was. *)
Theorem C8_removed_only_by_release (expected : JsObject.t (list string))
    (raises : Action → bool) (e : Event) (s s' : Store) (log : list Action)
    (c : Completion unit) (u k : string) (h : Handle) :
  dispatch expected raises e s = (s', log, c) →
  own_get (arrived s u) k = Some h →
  own_get (arrived s' u) k = None →
  (∃ req res,
     e = RequestEnd req res ∧ url req = u
     ∧ on_end expected raises req res s = (s', log, Normal (Accepted true))
     ∧ arrived s' u = [])
  ∧ ∀ res, dispatch expected raises (ConnectionClosed res) s
             = (s, [], Normal tt).
Proof.
  intros Hd Hbefore Hafter. split; [| done].
  destruct e as [req res| |x]; simpl in Hd.
  2:{ pose proof (keep_alive_store raises s) as H. rewrite Hd in H.
      simpl in H. subst s'. congruence. }
  2:{ injection Hd as <- <- <-. congruence. }
  exists req, res. split; [done |].
  rewrite bind_run in Hd.
  destruct (on_end expected raises req res s) as [[s1 l1] r] eqn:Hrun.
  assert (s1 = s') as ->
    by (destruct r; simpl in Hd; congruence).
  enough (url req = u ∧ r = Normal (Accepted true) ∧ arrived s' u = [])
    as (Hu & -> & Ha).
  { simpl in Hd. injection Hd as <- _. by rewrite app_nil_r. }
  clear Hd.
  destruct (decide (method req = "POST")) as [Hm|Hm].
  2:{ rewrite on_end_not_post in Hrun by done.
      injection Hrun as <- _ _. congruence. }
  destruct (own_get expected (url req)) as [ids|] eqn:He.
  2:{ rewrite on_end_unknown_group in Hrun by done.
      injection Hrun as <- _ _. congruence. }
  destruct (decide (indexOf ids (id req) = (-1)%Z)) as [Hi|Hi].
  { rewrite (on_end_unrecognized _ _ _ _ _ ids) in Hrun by done.
    injection Hrun as <- _ _. congruence. }
  destruct (is_undefined (arrived s (url req)) (to_string (id req))) eqn:Hun.
  2:{ rewrite (on_end_duplicate _ _ _ _ _ ids) in Hrun by done.
      injection Hrun as <- _ _. rewrite arrived_set_arrived in Hafter.
      congruence. }
  rewrite (on_end_accept _ _ _ _ _ ids) in Hrun by done. cbn zeta in Hrun.
  apply is_undefined_true in Hun as [Hfresh _].
  destruct (raises (WriteHead res 200)).
  { injection Hrun as <- _ _. rewrite arrived_set_arrived in Hafter.
    congruence. }
  destruct (existsb _ ids).
  { injection Hrun as <- _ _.
    rewrite own_get_arrived_set_fresh in Hafter by eauto. congruence. }
  destruct (attempt raises _) as [d [a|]]; simpl in Hrun.
  { injection Hrun as <- _ _.
    rewrite own_get_arrived_set_fresh in Hafter by eauto. congruence. }
  injection Hrun as <- _ <-.
  destruct (decide (url req = u)) as [Hu|Hu].
  - subst u. split_and!; try done. apply arrived_set.
  - rewrite arrived_set_ne in Hafter by done. congruence.
Qed.

Lemma C8_removed_only_by_release_witness :
  let expected := [("/", ["h1"; "h2"])] in
  let s := [("/", [("h1", 1)])] in
  ∃ req res,
    RequestEnd (post "/" "h2") 2 = RequestEnd req res ∧ url req = "/"
    ∧ on_end expected quiet req res s =
        ([("/", [])],
         [WriteHead 2 200; End 1 (Some GO); End 2 (Some GO)],
         Normal (Accepted true))
    ∧ arrived [("/", [])] "/" = [].
Proof.
  intros expected s.
  apply (C8_removed_only_by_release expected quiet
           (RequestEnd (post "/" "h2") 2) s [("/", [])]
           [WriteHead 2 200; End 1 (Some GO); End 2 (Some GO)]
           (Normal tt) "/" "h1" 1).
  - vm_compute. reflexivity.
  - reflexivity.
  - reflexivity.
Defined.

(** C8 fails as stated: the connection of the held participant "h1" ends,
    and its entry is still in the arrived map, with the same handle, also
    after the next tick. *)
Lemma C8_counterexample :
  let expected := [("/", ["h1"; "h2"])] in
  let s := (run expected quiet [RequestEnd (post "/" "h1") 1] initial).1.1 in
  let s' := (run expected quiet [ConnectionClosed 1; Interval] s).1.1 in
  own_get (arrived s "/") "h1" = Some 1
  ∧ own_get (arrived s' "/") "h1" = Some 1
  ∧ s' = s.
Proof. split_and!; reflexivity. Qed.

(** ** Check-ins one after the other *)

Section serialized.
Variable expected : JsObject.t (list string).

Local Abbreviation on_end := (on_end expected quiet).
Local Abbreviation run := (run expected quiet).
Local Abbreviation rounds_completed := (rounds_completed expected quiet).

(** An accepted check-in when no response method raises. *)
Lemma on_end_quiet_accept u k res s ids :
  own_get expected u = Some ids →
  k ∈ ids →
  is_undefined (arrived s u) k = true →
  on_end (post u k) res s =
    let c := set (arrived s u) k res in
    if existsb (is_undefined c) ids
    then (set s u c, [WriteHead res 200], Normal (Accepted false))
    else (set s u [], WriteHead res 200 :: release_calls c,
          Normal (Accepted true)).
Proof.
  intros He Hk Hu.
  rewrite (on_end_accept _ _ _ _ _ ids); try done.
  - cbn [url id post to_string quiet]. cbn zeta.
    destruct (existsb _ ids); [done |]. by rewrite attempt_quiet_all.
  - by apply indexOf_found.
Qed.

Lemma incomplete_when_missing (c : JsObject.t Handle) ids x :
  x ∈ ids → is_undefined c x = true →
  existsb (is_undefined c) ids = true.
Proof.
  intros Hx Hu. apply existsb_exists. exists x.
  split; [by apply list_elem_of_In | done].
Qed.

Lemma is_undefined_set_ne (c : JsObject.t Handle) k k' res :
  k ≠ k' → is_undefined (set c k res) k' = is_undefined c k'.
Proof.
  intros Hne. unfold is_undefined, get. by rewrite own_get_set_ne.
Qed.

Lemma is_undefined_nil k :
  is_undefined (V:=Handle) [] k = negb (inherited k).
Proof. unfold is_undefined, get. simpl. by destruct (inherited k). Qed.

Lemma run_cons_request req res evs s :
  run (RequestEnd req res :: evs) s =
    match on_end req res s with
    | (s1, l1, Normal _) =>
        let '(s2, l2, c) := run evs s1 in (s2, l1 ++ l2, c)
    | (s1, l1, Throw e) => (s1, l1, Throw e)
    end.
Proof.
  simpl. rewrite !bind_run.
  destruct (on_end req res s) as [[s1 l1] [r|e]]; simpl; [| done].
  destruct (run evs s1) as [[s2 l2] c]. by rewrite app_nil_r.
Qed.
End serialized.

(** C9, as the code has it.  The listeners of two requests that arrive
    together run one after the other, each to its end.  For two ids that
    have not arrived, in either order (the statement is symmetric in the
    two requests): when the ids differ, the first check-in is recorded
    without completing the round, the second is accepted too and evaluates
    completeness on a map that holds both entries; when the ids are equal,
    the second is refused as [DuplicateArrival] unless the first completed
    the round, and then it is accepted, as the first arrival of the next
    round. *)
Theorem C9_simultaneous_checkins (expected : JsObject.t (list string))
    (u a b : string) (res1 res2 : Handle) (s : Store) (ids : list string) :
  own_get expected u = Some ids →
  a ∈ ids → b ∈ ids →
  is_undefined (arrived s u) a = true →
  is_undefined (arrived s u) b = true →
  let first := set (arrived s u) a res1 in
  let r1 := on_end expected quiet (post u a) res1 s in
  let r2 := on_end expected quiet (post u b) res2 r1.1.1 in
  (a ≠ b →
     let both := set first b res2 in
     r1 = (set s u first, [WriteHead res1 200], Normal (Accepted false))
     ∧ own_get both a = Some res1 ∧ own_get both b = Some res2
     ∧ r2 = if existsb (is_undefined both) ids
            then (set s u both, [WriteHead res2 200], Normal (Accepted false))
            else (set s u [], WriteHead res2 200 :: release_calls both,
                  Normal (Accepted true)))
  ∧ (a = b →
     if existsb (is_undefined first) ids
     then r1.2 = Normal (Accepted false)
          ∧ r2 = refusal quiet res2 (DuplicateArrival b) r1.1.1
     else r1.2 = Normal (Accepted true)
          ∧ ∃ allCheckedIn, r2.2 = Normal (Accepted allCheckedIn)).
Proof.
  intros He Ha Hb Hua Hub first r1 r2.
  pose proof (on_end_quiet_accept expected u a res1 s ids He Ha Hua) as H1.
  cbn zeta in H1. fold first in H1. fold r1 in H1.
  split.
  - intros Hne both.
    assert (is_undefined first b = true) as Hfb
      by (unfold first; by rewrite is_undefined_set_ne).
    rewrite (incomplete_when_missing first ids b Hb Hfb) in H1.
    assert (arrived r1.1.1 u = first) as Har
      by (rewrite H1; apply arrived_set).
    split_and!; [done | | apply own_get_set_eq |].
    + unfold both. rewrite own_get_set_ne by done. apply own_get_set_eq.
    + unfold r2.
      rewrite (on_end_quiet_accept expected u b res2 _ ids He Hb)
        by by rewrite Har.
      cbn zeta. rewrite Har. fold both. rewrite H1. cbn [fst].
      by rewrite !set_set.
  - intros <-. destruct (existsb (is_undefined first) ids) eqn:Ex.
    + split; [by rewrite H1 |]. unfold r2.
      assert (arrived r1.1.1 u = first) as Har
        by (rewrite H1; apply arrived_set).
      rewrite (on_end_duplicate _ _ _ _ _ ids); try done.
      * cbn [url id post to_string]. rewrite Har.
        f_equal. rewrite H1. cbn [fst]. apply set_set.
      * by apply (indexOf_found ids a).
      * cbn [url id post to_string]. rewrite Har.
        apply is_undefined_false_own. unfold first.
        rewrite own_get_set_eq. eauto.
    + split; [by rewrite H1 |]. unfold r2.
      assert (arrived r1.1.1 u = []) as Har
        by (rewrite H1; apply arrived_set).
      rewrite (on_end_quiet_accept expected u a res2 _ ids He Ha).
      * cbn zeta.
        destruct (existsb (is_undefined (set (arrived r1.1.1 u) a res2)) ids);
          [exists false | exists true]; reflexivity.
      * rewrite Har, is_undefined_nil.
        apply is_undefined_true in Hua as [_ ->]. done.
Qed.

Lemma C9_simultaneous_checkins_witness :
  let expected := [("/", ["h1"; "h2"; "h3"])] in
  let r1 := on_end expected quiet (post "/" "h1") 1 initial in
  let r2 := on_end expected quiet (post "/" "h1") 2 r1.1.1 in
  r1.2 = Normal (Accepted false)
  ∧ r2 = refusal quiet 2 (DuplicateArrival "h1") r1.1.1.
Proof.
  intros expected.
  assert ("h1" ∈ ["h1"; "h2"; "h3"]) as Hk
    by (apply (bool_decide_unpack _); vm_compute; exact I).
  exact (proj2 (C9_simultaneous_checkins expected "/" "h1" "h1" 1 2 initial
                  ["h1"; "h2"; "h3"] eq_refl Hk Hk eq_refl eq_refl) eq_refl).
Defined.

(** C9 fails as stated: in a group whose only expected id is "h1", two
    check-ins of "h1" that arrive together are both accepted and both
    released at once, each completing a round; neither is a
    [DuplicateArrival]. *)
Lemma C9_counterexample :
  let expected := [("/", ["h1"])] in
  let r1 := on_end expected quiet (post "/" "h1") 1 initial in
  let r2 := on_end expected quiet (post "/" "h1") 2 r1.1.1 in
  r1 = ([("/", [])], [WriteHead 1 200; End 1 (Some GO)],
        Normal (Accepted true))
  ∧ r2 = ([("/", [])], [WriteHead 2 200; End 2 (Some GO)],
          Normal (Accepted true)).
Proof. split; vm_compute; reflexivity. Qed.

(** ** Rounds *)

(** What a check-in that finds [allCheckedIn] true tells of the state
    before it. *)
Lemma on_end_completed_inv (expected : JsObject.t (list string))
    (raises : Action → bool) req res s s' log :
  on_end expected raises req res s = (s', log, Normal (Accepted true)) →
  ∃ ids,
    own_get expected (url req) = Some ids
    ∧ indexOf ids (id req) ≠ (-1)%Z
    ∧ is_undefined (arrived s (url req)) (to_string (id req)) = true
    ∧ existsb
        (is_undefined (set (arrived s (url req)) (to_string (id req)) res))
        ids = false
    ∧ s' = set s (url req) [].
Proof.
  intros Hrun.
  destruct (decide (method req = "POST")) as [Hm|Hm].
  2:{ rewrite on_end_not_post in Hrun by done. unfold refusal in Hrun.
      by destruct (raises _). }
  destruct (own_get expected (url req)) as [ids|] eqn:He.
  2:{ rewrite on_end_unknown_group in Hrun by done. unfold refusal in Hrun.
      by destruct (raises _). }
  destruct (decide (indexOf ids (id req) = (-1)%Z)) as [Hi|Hi].
  { rewrite (on_end_unrecognized _ _ _ _ _ ids) in Hrun by done.
    unfold refusal in Hrun. by destruct (raises _). }
  destruct (is_undefined (arrived s (url req)) (to_string (id req))) eqn:Hu.
  2:{ rewrite (on_end_duplicate _ _ _ _ _ ids) in Hrun by done.
      unfold refusal in Hrun. by destruct (raises _). }
  rewrite (on_end_accept _ _ _ _ _ ids) in Hrun by done. cbn zeta in Hrun.
  destruct (raises (WriteHead res 200)); [done |].
  destruct (existsb _ ids) eqn:Ex; [done |].
  destruct (attempt raises _) as [d [a|]]; simpl in Hrun; [done |].
  injection Hrun as <- _. by exists ids.
Qed.

Section rounds.
Variable expected : JsObject.t (list string).

Local Abbreviation on_end := (on_end expected quiet).
Local Abbreviation run := (run expected quiet).
Local Abbreviation rounds_completed := (rounds_completed expected quiet).

Lemma keys_order_singleton (k : string) : keys_order [k] = [k].
Proof.
  unfold keys_order. rewrite !filter_cons, !filter_nil.
  destruct (decide (is_index k)) as [Hi|Hi].
  - by rewrite decide_False by tauto.
  - by rewrite decide_True by done.
Qed.

Lemma release_calls_singleton (k : string) (res : Handle) :
  release_calls [(k, res)] = [End res (Some GO)].
Proof.
  unfold release_calls, release_order, keys, own_keys. csimpl.
  rewrite keys_order_singleton. simpl. by rewrite decide_True.
Qed.

Lemma rounds_completed_cons_request req res evs s :
  rounds_completed (RequestEnd req res :: evs) s =
    match on_end req res s with
    | (s', _, Normal (Accepted true)) => S (rounds_completed evs s')
    | (s', _, Normal _) => rounds_completed evs s'
    | (_, _, Throw _) => 0
    end.
Proof. reflexivity. Qed.

Variables (u : string) (ids : list string).
Hypothesis Hids : own_get expected u = Some ids.

(** The check-ins of the ids that are still missing, in a state in which
    the ids [pre] have arrived: all are accepted, and the last one
    completes the round. *)
Lemma replay_suffix (suf : list string) :
  ∀ (pre : list string) (s : Store) (h : Handle),
    own_keys (arrived s u) = pre →
    NoDup (pre ++ suf) → suf ≠ [] →
    (∀ k, k ∈ pre ++ suf → k ∈ ids ∧ inherited k = false) →
    (∀ x, x ∈ ids → x ∈ pre ++ suf ∨ inherited x = true) →
    (run (checkins_of u suf h) s).2 = Normal tt
    ∧ (run (checkins_of u suf h) s).1.1 = set s u []
    ∧ rounds_completed (checkins_of u suf h) s = 1.
Proof.
  induction suf as [|k suf IH]; intros pre s h Hpre Hnd Hne Hin Hall;
    [done |].
  assert (k ∈ ids ∧ inherited k = false) as [Hk Hki]
    by (apply Hin, elem_of_app; right; left).
  assert (own_get (arrived s u) k = None) as Hfresh.
  { apply own_get_None. rewrite Hpre. apply NoDup_app in Hnd as (_ & Hd & _).
    intros Hp. apply (Hd k Hp). left. }
  assert (is_undefined (arrived s u) k = true) as Hu
    by by apply is_undefined_true.
  assert (own_keys (set (arrived s u) k h) = pre ++ [k]) as Hkeys
    by (rewrite own_keys_set_fresh by done; by rewrite Hpre).
  cbn [checkins_of]. rewrite run_cons_request, rounds_completed_cons_request.
  rewrite (on_end_quiet_accept expected u k h s ids Hids Hk Hu). cbn zeta.
  assert (pre ++ k :: suf = (pre ++ [k]) ++ suf) as Heq
    by (by rewrite <- (assoc_L (++))).
  rewrite Heq in Hnd. setoid_rewrite Heq in Hin. setoid_rewrite Heq in Hall.
  destruct suf as [|k2 suf].
  - rewrite complete_when_all_own; [by cbn |].
    intros x Hx. rewrite Hkeys. rewrite app_nil_r in Hall.
    destruct (Hall x Hx); [by left | by right].
  - assert (k2 ∈ ids ∧ inherited k2 = false) as [Hk2 Hk2i]
      by (apply Hin, elem_of_app; right; left).
    rewrite (incomplete_when_missing _ ids k2 Hk2).
    2:{ apply is_undefined_true. split; [| done]. apply own_get_None.
        rewrite Hkeys. intros Hx.
        apply NoDup_app in Hnd as (_ & Hd & _). apply (Hd k2 Hx). left. }
    destruct (IH (pre ++ [k]) (set s u (set (arrived s u) k h)) (S h))
      as (Hc & Hs & Hr); try done.
    + by rewrite arrived_set.
    + rewrite Hr.
      destruct (run (checkins_of u (k2 :: suf) (S h)) _) as [[s2 l2] c].
      simpl in *. subst. by rewrite set_set.
Qed.

Lemma run_app evs1 evs2 s :
  (run evs1 s).2 = Normal tt →
  (run (evs1 ++ evs2) s).2 = (run evs2 (run evs1 s).1.1).2
  ∧ (run (evs1 ++ evs2) s).1.1 = (run evs2 (run evs1 s).1.1).1.1
  ∧ rounds_completed (evs1 ++ evs2) s =
      rounds_completed evs1 s + rounds_completed evs2 (run evs1 s).1.1.
Proof.
  revert s. induction evs1 as [|e evs1 IH]; intros s Hc; [done |].
  destruct e as [req res| |x].
  - rewrite <- app_comm_cons, !run_cons_request in *.
    rewrite !rounds_completed_cons_request.
    destruct (on_end req res s) as [[s1 l1] [r|e]]; [| done].
    specialize (IH s1).
    destruct (run evs1 s1) as [[s2 l2] c] eqn:E1. simpl in Hc. subst c.
    destruct (IH eq_refl) as (H2 & H1 & Hr). simpl in H2, H1, Hr.
    destruct (run (evs1 ++ evs2) s1) as [[s3 l3] c3].
    simpl in *. split_and!; try done.
    destruct r as [[]|]; rewrite Hr; done.
  - rewrite <- app_comm_cons. simpl in *. rewrite !bind_run in *.
    destruct (keep_alive quiet s) as [[s1 l1] [[]|e]]; [| done].
    specialize (IH s1).
    destruct (run evs1 s1) as [[s2 l2] c] eqn:E1. simpl in Hc. subst c.
    destruct (IH eq_refl) as (H2 & H1 & Hr). simpl in H2, H1, Hr.
    destruct (run (evs1 ++ evs2) s1) as [[s3 l3] c3]. by simpl in *.
  - rewrite <- app_comm_cons. simpl in *. rewrite !bind_run in *.
    simpl in *. specialize (IH s).
    destruct (run evs1 s) as [[s2 l2] c] eqn:E1. simpl in Hc. subst c.
    destruct (IH eq_refl) as (H2 & H1 & Hr). simpl in H2, H1, Hr.
    destruct (run (evs1 ++ evs2) s) as [[s3 l3] c3]. by simpl in *.
Qed.

(** Any number of rounds, one after the other. *)
Lemma replay_rounds (ks : list string) (n : nat) :
  NoDup ks → ks ≠ [] →
  (∀ k, k ∈ ks → k ∈ ids ∧ inherited k = false) →
  (∀ x, x ∈ ids → x ∈ ks ∨ inherited x = true) →
  ∀ (s : Store) (h : Handle),
    arrived s u = [] →
    (run (rounds_of u ks n h) s).2 = Normal tt
    ∧ arrived (run (rounds_of u ks n h) s).1.1 u = []
    ∧ rounds_completed (rounds_of u ks n h) s = n.
Proof.
  intros Hnd Hne Hin Hall. induction n as [|n IH]; intros s h Hs; [done |].
  cbn [rounds_of].
  destruct (replay_suffix ks [] s h) as (Hc & Hst & Hr); try done.
  { by rewrite Hs. }
  destruct (run_app (checkins_of u ks h) (rounds_of u ks n (h + length ks))
              s Hc) as (H2 & H1 & Hrc).
  rewrite H2, H1, Hrc, Hr, Hst.
  destruct (IH (set s u []) (h + length ks)) as (? & ? & ->);
    [apply arrived_set | done].
Qed.
End rounds.

(** C7, as the code has it.  After a check-in has completed a round, the
    arrived map of the group is empty; a new check-in of an id released in
    that round is accepted, never refused as a duplicate: it is held, unless
    it completes a round by itself (no other expected id is missing, as in a
    group with one member), and then it is released at once; and the ids of
    the round can complete any number of further rounds. *)
Theorem C7_round_reuse (expected : JsObject.t (list string))
    (raises : Action → bool) (req0 : Request) (res0 : Handle)
    (s0 s : Store) (log0 : list Action) :
  Inv expected s0 →
  on_end expected raises req0 res0 s0 = (s, log0, Normal (Accepted true)) →
  let u := url req0 in
  let released := own_keys (set (arrived s0 u) (to_string (id req0)) res0) in
  arrived s u = []
  ∧ (∀ k res, k ∈ released →
       on_end expected quiet (post u k) res s =
         if existsb (is_undefined [(k, res)]) (expected_ids expected u)
         then (set s u [(k, res)], [WriteHead res 200],
               Normal (Accepted false))
         else (set s u [], [WriteHead res 200; End res (Some GO)],
               Normal (Accepted true)))
  ∧ (∀ n h,
       let evs := rounds_of u released n h in
       (run expected quiet evs s).2 = Normal tt
       ∧ rounds_completed expected quiet evs s = n
       ∧ arrived (run expected quiet evs s).1.1 u = []).
Proof.
  intros HI Hrun u released.
  destruct (on_end_completed_inv _ _ _ _ _ _ _ Hrun)
    as (ids & He & Hi & Hu & Hall & ->).
  fold u in He, Hu, Hall |- *.
  assert (to_string (id req0) ∈ ids) as Hk0.
  { destruct (id req0) as [|k|l]; try done. by apply indexOf_found. }
  pose proof (group_ok_checkin expected u _ ids _ res0
                (Inv_arrived expected s0 u ids HI He) He Hk0 Hu)
    as (Hwf & Hni & Hsub).
  simpl in Hwf, Hni, Hsub. rewrite He in Hsub. fold released in Hwf, Hni, Hsub.
  assert (arrived (set s0 u []) u = []) as Hempty by apply arrived_set.
  assert (∀ k, k ∈ released → k ∈ ids ∧ inherited k = false) as Hin.
  { intros k Hk. split; [by apply Hsub |].
    by apply (proj1 (Forall_forall _ _) Hni). }
  assert (∀ x, x ∈ ids → x ∈ released ∨ inherited x = true) as Hcov.
  { intros x Hx.
    destruct (is_undefined (set (arrived s0 u) (to_string (id req0)) res0) x)
      eqn:Hux.
    - rewrite (incomplete_when_missing _ ids x Hx Hux) in Hall. done.
    - unfold is_undefined, get in Hux.
      destruct (own_get _ x) eqn:Hg.
      + left. apply own_get_is_Some. eauto.
      + right. by destruct (inherited x). }
  split_and!; [done | |].
  - intros k res Hk. destruct (Hin k Hk) as [Hkin Hki].
    unfold expected_ids. rewrite He.
    rewrite (on_end_quiet_accept expected u k res _ ids He Hkin).
    + rewrite Hempty. cbn [set]. cbn zeta.
      rewrite release_calls_singleton. reflexivity.
    + by rewrite Hempty, is_undefined_nil, Hki.
  - intros n h evs.
    destruct (replay_rounds expected u ids He released n) with
      (s := set s0 u []) (h := h) as (? & ? & ?); try done.
    unfold released. apply is_undefined_true in Hu as [Hfresh _].
    rewrite own_keys_set_fresh by done.
    intros Hnil. apply app_eq_nil in Hnil as [_ Hnil]. discriminate.
Qed.

Lemma C7_round_reuse_witness :
  let expected := [("/", ["h1"; "h2"])] in
  let s := [("/", [])] in
  on_end expected quiet (post "/" "h1") 3 s =
    ([("/", [("h1", 3)])], [WriteHead 3 200], Normal (Accepted false))
  ∧ rounds_completed expected quiet (rounds_of "/" ["h1"; "h2"] 5 10) s = 5.
Proof.
  intros expected s.
  assert (Inv expected [("/", [("h1", 1)])]) as HI
    by (apply (bool_decide_unpack _); vm_compute; exact I).
  assert (on_end expected quiet (post "/" "h2") 2 [("/", [("h1", 1)])] =
            (s, [WriteHead 2 200; End 1 (Some GO); End 2 (Some GO)],
             Normal (Accepted true))) as Hrun
    by (vm_compute; reflexivity).
  destruct (C7_round_reuse expected quiet (post "/" "h2") 2
              [("/", [("h1", 1)])] s _ HI Hrun) as (_ & Hheld & Hrounds).
  split.
  - apply (Hheld "h1" 3). apply (bool_decide_unpack _). vm_compute. exact I.
  - apply (Hrounds 5 10).
Defined.

(** C7 fails as stated: in a group whose only expected id is "h1", the
    check-in of "h1" after a completed round is accepted but not held: it
    completes the next round by itself, its response is ended at once and
    the arrived map is empty again. *)
Lemma C7_counterexample :
  let expected := [("/", ["h1"])] in
  let s := (run expected quiet [RequestEnd (post "/" "h1") 1] initial).1.1 in
  let r := on_end expected quiet (post "/" "h1") 2 s in
  r = ([("/", [])], [WriteHead 2 200; End 2 (Some GO)],
       Normal (Accepted true))
  ∧ own_get (arrived r.1.1 "/") "h1" = None.
Proof. split; vm_compute; reflexivity. Qed.

(** * Further properties of the listener *)

Lemma is_undefined_inherited {V} (c : JsObject.t V) (k : string) :
  inherited k = true → is_undefined c k = false.
Proof.
  intros Hi. unfold is_undefined, get. rewrite Hi. by destruct (own_get c k).
Qed.

Lemma status_of_errors (v : QsValue) (k : string) :
  statusCode MethodNotAllowed = 405%Z ∧ statusCode UnknownGroup = 404%Z
  ∧ statusCode (UnrecognizedParticipant v) = 400%Z
  ∧ statusCode (DuplicateArrival k) = 400%Z.
Proof. done. Qed.

(** X1: a POST to a url that [config.expected] does not list is refused
    with status 404 and no message, whatever its body; [checkinStore] is not
    touched, so no object is created for the unknown url. *)
Theorem X1_unknown_group_is_404 (expected : JsObject.t (list string))
    (raises : Action → bool) (req : Request) (res : Handle) (s : Store) :
  method req = "POST" →
  own_get expected (url req) = None →
  checkin expected raises req res s = (s, [], Throw (EHttp UnknownGroup))
  ∧ (on_end expected raises req res s).1 =
      (s, [SetStatusCode res 404; End res None])
  ∧ own_get (on_end expected raises req res s).1.1 (url req)
    = own_get s (url req).
Proof.
  intros Hm He. rewrite on_end_unknown_group by done. split_and!; try done.
  unfold checkin. by rewrite (proj2 (String.eqb_eq _ _) Hm), He.
Qed.

Lemma X1_unknown_group_is_404_witness :
  (on_end [("/", ["h1"; "h2"])] quiet (post "/other" "h1") 7 initial).1 =
    (initial, [SetStatusCode 7 404; End 7 None]).
Proof.
  apply (X1_unknown_group_is_404 [("/", ["h1"; "h2"])] quiet
           (post "/other" "h1") 7 initial); reflexivity.
Defined.

(** X2: whenever the listener refuses a request, the error is one of the
    four that the [try] block throws (status 405, 404 or 400), the only
    actions are the status and the [end] on the response of that request,
    and no arrived map has changed: nothing is held or released. *)
Theorem X2_refusal_changes_nothing (expected : JsObject.t (list string))
    (raises : Action → bool) (req : Request) (res : Handle) (s s' : Store)
    (log : list Action) (e : HttpError) :
  on_end expected raises req res s = (s', log, Normal (Refused e)) →
  log = [SetStatusCode res (statusCode e); End res (message e)]
  ∧ (∀ u, arrived s' u = arrived s u)
  ∧ (e = MethodNotAllowed ∨ e = UnknownGroup
     ∨ e = UnrecognizedParticipant (id req)
     ∨ e = DuplicateArrival (to_string (id req)))
  ∧ (statusCode e = 405 ∨ statusCode e = 404 ∨ statusCode e = 400)%Z.
Proof.
  intros Hrun.
  assert (∀ e0 s0, refusal raises res e0 s0 = (s', log, Normal (Refused e)) →
            e0 = e ∧ s0 = s'
            ∧ log = [SetStatusCode res (statusCode e); End res (message e)])
    as Hinv.
  { intros e0 s0 H. unfold refusal in H.
    destruct (raises _); [done |]. by injection H as <- <- <-. }
  destruct (decide (method req = "POST")) as [Hm|Hm].
  2:{ rewrite on_end_not_post in Hrun by done.
      apply Hinv in Hrun as (<- & <- & ->). split_and!; auto. }
  destruct (own_get expected (url req)) as [ids|] eqn:He.
  2:{ rewrite on_end_unknown_group in Hrun by done.
      apply Hinv in Hrun as (<- & <- & ->). split_and!; auto. }
  destruct (decide (indexOf ids (id req) = (-1)%Z)) as [Hi|Hi].
  { rewrite (on_end_unrecognized _ _ _ _ _ ids) in Hrun by done.
    apply Hinv in Hrun as (<- & <- & ->). split_and!; auto. }
  destruct (is_undefined (arrived s (url req)) (to_string (id req))) eqn:Hu.
  2:{ rewrite (on_end_duplicate _ _ _ _ _ ids) in Hrun by done.
      apply Hinv in Hrun as (<- & <- & ->). split_and!; auto.
      intros u. apply arrived_set_arrived. }
  rewrite (on_end_accept _ _ _ _ _ ids) in Hrun by done. cbn zeta in Hrun.
  destruct (raises (WriteHead res 200)); [done |].
  destruct (existsb _ ids); [done |].
  by destruct (attempt raises _) as [d [a|]].
Qed.

Lemma X2_refusal_changes_nothing_witness :
  let s := [("/", [("h1", 1)])] in
  let r := on_end [("/", ["h1"; "h2"])] quiet (post "/" "h1") 2 s in
  r.2 = Normal (Refused (DuplicateArrival "h1"))
  ∧ arrived r.1.1 "/" = arrived s "/"
  ∧ (statusCode (DuplicateArrival "h1") = 405
     ∨ statusCode (DuplicateArrival "h1") = 404
     ∨ statusCode (DuplicateArrival "h1") = 400)%Z.
Proof.
  intros s r. split; [reflexivity |].
  destruct (X2_refusal_changes_nothing [("/", ["h1"; "h2"])] quiet
              (post "/" "h1") 2 s r.1.1 r.1.2 (DuplicateArrival "h1")
              eq_refl) as (_ & Hsame & _ & Hstatus).
  split; [apply Hsame | exact Hstatus].
Defined.

(** X3: a check-in is held as long as another expected id is still
    missing: the only action is the head of its own response (status 200,
    chunked), no response is ended, the handle is stored under the id and the
    other entries stay as they are. *)
Theorem X3_held_until_complete (expected : JsObject.t (list string))
    (raises : Action → bool) (u k x : string) (res : Handle) (s : Store)
    (ids : list string) :
  own_get expected u = Some ids →
  k ∈ ids →
  is_undefined (arrived s u) k = true →
  x ∈ ids → x ≠ k →
  is_undefined (arrived s u) x = true →
  raises (WriteHead res 200) = false →
  let r := on_end expected raises (post u k) res s in
  r = (set s u (set (arrived s u) k res), [WriteHead res 200],
       Normal (Accepted false))
  ∧ own_get (arrived r.1.1 u) k = Some res
  ∧ ∀ k', k' ≠ k → own_get (arrived r.1.1 u) k' = own_get (arrived s u) k'.
Proof.
  intros He Hk Hu Hx Hne Hux Hw r.
  assert (r = (set s u (set (arrived s u) k res), [WriteHead res 200],
               Normal (Accepted false))) as Hr.
  { unfold r. rewrite (on_end_accept _ _ _ _ _ ids); try done.
    - cbn [url id post to_string]. cbn zeta. rewrite Hw.
      rewrite (incomplete_when_missing _ ids x Hx); [done |].
      by rewrite is_undefined_set_ne.
    - by apply (indexOf_found ids k). }
  rewrite Hr. cbn [fst]. rewrite arrived_set. split_and!; [done | |].
  - apply own_get_set_eq.
  - intros k' Hk'. by apply own_get_set_ne.
Qed.

Lemma X3_held_until_complete_witness :
  on_end [("/", ["h1"; "h2"])] quiet (post "/" "h1") 1 initial =
    ([("/", [("h1", 1)])], [WriteHead 1 200], Normal (Accepted false)).
Proof.
  assert ("h1" ∈ ["h1"; "h2"]) as H1
    by (apply (bool_decide_unpack _); vm_compute; exact I).
  assert ("h2" ∈ ["h1"; "h2"]) as H2
    by (apply (bool_decide_unpack _); vm_compute; exact I).
  assert ("h2" ≠ "h1") as Hne by discriminate.
  exact (proj1 (X3_held_until_complete [("/", ["h1"; "h2"])] quiet "/" "h1"
                  "h2" 1 initial ["h1"; "h2"] eq_refl H1 eq_refl H2 Hne
                  eq_refl eq_refl)).
Defined.

(** X4: a round is completed only when every expected id that is not the
    name of a member of [Object.prototype] has an entry: it is the id of the
    completing request or a key of the arrived map. *)
Theorem X4_release_needs_all (expected : JsObject.t (list string))
    (raises : Action → bool) (req : Request) (res : Handle) (s s' : Store)
    (log : list Action) (x : string) :
  on_end expected raises req res s = (s', log, Normal (Accepted true)) →
  x ∈ expected_ids expected (url req) →
  inherited x = false →
  x = to_string (id req) ∨ x ∈ own_keys (arrived s (url req)).
Proof.
  intros Hrun Hx Hxi.
  destruct (on_end_completed_inv _ _ _ _ _ _ _ Hrun)
    as (ids & He & Hi & Hu & Hall & ->).
  unfold expected_ids in Hx. rewrite He in Hx. simpl in Hx.
  destruct (is_undefined
              (set (arrived s (url req)) (to_string (id req)) res) x)
    eqn:Hux.
  { by rewrite (incomplete_when_missing _ ids x Hx Hux) in Hall. }
  destruct (decide (x = to_string (id req))) as [|Hne]; [by left | right].
  rewrite is_undefined_set_ne in Hux by done.
  unfold is_undefined, get in Hux. rewrite Hxi in Hux.
  destruct (own_get (arrived s (url req)) x) eqn:Hg; [| done].
  apply own_get_is_Some. eauto.
Qed.

Lemma X4_release_needs_all_witness :
  "h1" = to_string (id (post "/" "h2"))
  ∨ "h1" ∈ own_keys (arrived [("/", [("h1", 1)])] (url (post "/" "h2"))).
Proof.
  apply (X4_release_needs_all [("/", ["h1"; "h2"])] quiet (post "/" "h2") 2
           [("/", [("h1", 1)])] [("/", [])]
           [WriteHead 2 200; End 1 (Some GO); End 2 (Some GO)] "h1").
  - vm_compute. reflexivity.
  - apply (bool_decide_unpack _). vm_compute. exact I.
  - reflexivity.
Defined.

(** X5: an expected id that is the name of a member of [Object.prototype]
    (such as "constructor" or "toString") can never check in: in every
    state, [checkins[id]] is not [undefined], so the request is refused as a
    duplicate and the arrived map stays as it is. *)
Theorem X5_prototype_name_never_checks_in
    (expected : JsObject.t (list string)) (raises : Action → bool)
    (u k : string) (res : Handle) (s : Store) (ids : list string) :
  own_get expected u = Some ids →
  k ∈ ids →
  inherited k = true →
  let r := on_end expected raises (post u k) res s in
  r = refusal raises res (DuplicateArrival k) (set s u (arrived s u))
  ∧ ∀ u', arrived r.1.1 u' = arrived s u'.
Proof.
  intros He Hk Hi r.
  assert (r = refusal raises res (DuplicateArrival k)
                (set s u (arrived s u))) as Hr.
  { unfold r. rewrite (on_end_duplicate _ _ _ _ _ ids); try done.
    - by apply (indexOf_found ids k).
    - by apply is_undefined_inherited. }
  split; [done |]. intros u'. rewrite Hr. apply arrived_set_arrived.
Qed.

Lemma X5_prototype_name_never_checks_in_witness :
  on_end [("/", ["h1"; "toString"])] quiet (post "/" "toString") 1 initial =
    refusal quiet 1 (DuplicateArrival "toString") [("/", [])].
Proof.
  assert ("toString" ∈ ["h1"; "toString"]) as Hk
    by (apply (bool_decide_unpack _); vm_compute; exact I).
  exact (proj1 (X5_prototype_name_never_checks_in
                  [("/", ["h1"; "toString"])] quiet "/" "toString" 1 initial
                  ["h1"; "toString"] eq_refl Hk eq_refl)).
Defined.

(** X6: the expected ids that name members of [Object.prototype] are not
    waited for: a check-in completes the round as soon as every other
    expected id has an entry, and all held responses are released. *)
Theorem X6_prototype_names_not_awaited (expected : JsObject.t (list string))
    (u k : string) (res : Handle) (s : Store) (ids : list string) :
  own_get expected u = Some ids →
  k ∈ ids →
  is_undefined (arrived s u) k = true →
  (∀ x, x ∈ ids →
        x = k ∨ x ∈ own_keys (arrived s u) ∨ inherited x = true) →
  on_end expected quiet (post u k) res s =
    (set s u [], WriteHead res 200 :: release_calls (set (arrived s u) k res),
     Normal (Accepted true)).
Proof.
  intros He Hk Hu Hall.
  rewrite (on_end_quiet_accept expected u k res s ids He Hk Hu). cbn zeta.
  rewrite complete_when_all_own; [done |].
  intros x Hx. apply is_undefined_true in Hu as [Hfresh _].
  rewrite own_keys_set_fresh by done. rewrite elem_of_app.
  destruct (Hall x Hx) as [->|[?|?]]; [left; right; left | by left; left
                                     | by right].
Qed.

Lemma X6_prototype_names_not_awaited_witness :
  on_end [("/", ["h1"; "toString"])] quiet (post "/" "h1") 1 initial =
    ([("/", [])], [WriteHead 1 200; End 1 (Some GO)],
     Normal (Accepted true)).
Proof.
  assert ("h1" ∈ ["h1"; "toString"]) as Hk
    by (apply (bool_decide_unpack _); vm_compute; exact I).
  apply (X6_prototype_names_not_awaited [("/", ["h1"; "toString"])] "/" "h1"
           1 initial ["h1"; "toString"] eq_refl Hk eq_refl).
  intros x Hx. apply elem_of_cons in Hx as [->|Hx]; [by left |].
  apply list_elem_of_singleton in Hx as ->. right. right. reflexivity.
Defined.

(** ** Groups are independent *)

Lemma on_end_state (expected : JsObject.t (list string))
    (raises : Action → bool) req res s :
  (on_end expected raises req res s).1.1 = s
  ∨ ∃ c, (on_end expected raises req res s).1.1 = set s (url req) c.
Proof.
  destruct (decide (method req = "POST")) as [Hm|Hm];
    [| left; by rewrite on_end_not_post].
  destruct (own_get expected (url req)) as [ids|] eqn:He;
    [| left; by rewrite on_end_unknown_group].
  destruct (decide (indexOf ids (id req) = (-1)%Z)) as [Hi|Hi];
    [left; by rewrite (on_end_unrecognized _ _ _ _ _ ids) |].
  right.
  destruct (is_undefined (arrived s (url req)) (to_string (id req))) eqn:Hu.
  - rewrite (on_end_accept _ _ _ _ _ ids) by done. cbn zeta.
    destruct (raises (WriteHead res 200)); [by eexists |].
    destruct (existsb _ ids); [by eexists |].
    destruct (attempt raises _) as [d [a|]]; by eexists.
  - rewrite (on_end_duplicate _ _ _ _ _ ids) by done. by eexists.
Qed.

(** X7: the groups are independent.  A request at one url leaves the
    arrived map of every other url as it is, and what the listener does for
    a request (its actions, how it completes, and the arrived map of the url
    afterwards) depends on [checkinStore] only through the arrived map of
    the url of the request. *)
Theorem X7_groups_are_independent (expected : JsObject.t (list string))
    (raises : Action → bool) (req : Request) (res : Handle)
    (s1 s2 : Store) :
  (∀ u, u ≠ url req →
        arrived (on_end expected raises req res s1).1.1 u = arrived s1 u)
  ∧ (arrived s1 (url req) = arrived s2 (url req) →
     (on_end expected raises req res s1).1.2
       = (on_end expected raises req res s2).1.2
     ∧ (on_end expected raises req res s1).2
       = (on_end expected raises req res s2).2
     ∧ arrived (on_end expected raises req res s1).1.1 (url req)
       = arrived (on_end expected raises req res s2).1.1 (url req)).
Proof.
  split.
  - intros u Hu.
    destruct (on_end_state expected raises req res s1) as [->|[c ->]];
      [done |]. by apply arrived_set_ne.
  - intros Ha.
    destruct (decide (method req = "POST")) as [Hm|Hm];
      [| by rewrite !on_end_not_post].
    destruct (own_get expected (url req)) as [ids|] eqn:He;
      [| by rewrite !on_end_unknown_group].
    destruct (decide (indexOf ids (id req) = (-1)%Z)) as [Hi|Hi];
      [by rewrite !(on_end_unrecognized _ _ _ _ _ ids) |].
    destruct (is_undefined (arrived s1 (url req)) (to_string (id req)))
      eqn:Hu.
    + rewrite !(on_end_accept _ _ _ _ _ ids) by (by rewrite <- ?Ha).
      cbn zeta. rewrite <- Ha.
      destruct (raises (WriteHead res 200));
        [cbn [fst snd]; by rewrite !arrived_set |].
      destruct (existsb _ ids); [cbn [fst snd]; by rewrite !arrived_set |].
      destruct (attempt raises _) as [d [a|]]; cbn [fst snd];
        by rewrite !arrived_set.
    + rewrite !(on_end_duplicate _ _ _ _ _ ids) by (by rewrite <- ?Ha).
      unfold refusal. cbn [fst snd]. by rewrite !arrived_set.
Qed.

(** ** What the listener acts on *)

Lemma attempt_sub (raises : Action → bool) (l : list Action) (a : Action) :
  a ∈ (attempt raises l).1 → a ∈ l.
Proof.
  induction l as [|x l IH]; simpl; [done |].
  destruct (raises x).
  - simpl. intros Ha. apply list_elem_of_singleton in Ha as ->. left.
  - destruct (attempt raises l) as [d r]. simpl in *.
    intros Ha. apply elem_of_cons in Ha as [->|Ha]; [left | right; auto].
Qed.

Lemma release_order_sub (c : JsObject.t Handle) (h : Handle) :
  h ∈ release_order c → h ∈ c.*2.
Proof.
  unfold release_order. intros Hh.
  apply list_elem_of_omap in Hh as (k & _ & Hk).
  apply own_get_Some_elem in Hk. apply list_elem_of_fmap. by exists (k, h).
Qed.

(** X8: the listener of a request acts on the response of that request
    and on nothing else, except to release: every action on another response
    object is [end('GO\r\n')] on a handle that the arrived map of the url
    holds. *)
Theorem X8_acts_on_own_response_or_releases
    (expected : JsObject.t (list string)) (raises : Action → bool)
    (req : Request) (res : Handle) (s : Store) (a : Action) :
  a ∈ (on_end expected raises req res s).1.2 →
  handle_of a = res
  ∨ (a = End (handle_of a) (Some GO)
     ∧ handle_of a ∈ (arrived s (url req)).*2).
Proof.
  assert (∀ e s0, a ∈ (refusal raises res e s0).1.2 → handle_of a = res)
    as Href.
  { intros e s0 Ha. simpl in Ha.
    apply elem_of_cons in Ha as [->|Ha]; [done |].
    by apply list_elem_of_singleton in Ha as ->. }
  destruct (decide (method req = "POST")) as [Hm|Hm].
  2:{ rewrite on_end_not_post by done. left. eauto. }
  destruct (own_get expected (url req)) as [ids|] eqn:He.
  2:{ rewrite on_end_unknown_group by done. left. eauto. }
  destruct (decide (indexOf ids (id req) = (-1)%Z)) as [Hi|Hi].
  { rewrite (on_end_unrecognized _ _ _ _ _ ids) by done. left. eauto. }
  destruct (is_undefined (arrived s (url req)) (to_string (id req))) eqn:Hu.
  2:{ rewrite (on_end_duplicate _ _ _ _ _ ids) by done. left. eauto. }
  rewrite (on_end_accept _ _ _ _ _ ids) by done. cbn zeta.
  assert (a ∈ [WriteHead res 200] → handle_of a = res) as Hw
    by (intros Ha; by apply list_elem_of_singleton in Ha as ->).
  destruct (raises (WriteHead res 200)); [left; auto |].
  destruct (existsb _ ids); [left; auto |].
  apply is_undefined_true in Hu as [Hfresh _].
  enough (a ∈ WriteHead res 200
              :: (attempt raises
                    (release_calls
                       (set (arrived s (url req)) (to_string (id req)) res))).1
          → handle_of a = res
            ∨ a = End (handle_of a) (Some GO)
              ∧ handle_of a ∈ (arrived s (url req)).*2) as Hrel.
  { destruct (attempt raises _) as [d [x|]]; simpl in *; auto. }
  intros Ha. apply elem_of_cons in Ha as [->|Ha]; [by left |].
  apply attempt_sub in Ha. unfold release_calls in Ha.
  apply list_elem_of_fmap in Ha as (h & -> & Hh). simpl.
  apply release_order_sub in Hh. rewrite set_fresh in Hh by done.
  rewrite fmap_app in Hh. apply elem_of_app in Hh as [Hh|Hh]; [by right |].
  left. by apply list_elem_of_singleton in Hh.
Qed.

Lemma X8_acts_on_own_response_or_releases_witness :
  handle_of (End 1 (Some GO)) = 2
  ∨ (End 1 (Some GO) = End (handle_of (End 1 (Some GO))) (Some GO)
     ∧ handle_of (End 1 (Some GO))
         ∈ (arrived [("/", [("h1", 1)])] (url (post "/" "h2"))).*2).
Proof.
  apply (X8_acts_on_own_response_or_releases [("/", ["h1"; "h2"])] quiet
           (post "/" "h2") 2 [("/", [("h1", 1)])] (End 1 (Some GO))).
  apply (bool_decide_unpack _). vm_compute. exact I.
Defined.

(** ** Groups that expect nobody *)

(** X9: without a configuration file [config.expected] is [{ '/': [] }],
    and then the server accepts no check-in at all: every request is refused
    (405, 404, or 400 at "/" since no id is expected there), on its own
    response, and [checkinStore] stays as it is. *)
Theorem X9_default_configuration_refuses_all (raises : Action → bool)
    (req : Request) (res : Handle) (s : Store) :
  expected_of (load_config None) = Some [("/", [])]
  ∧ ∃ e, on_end [("/", [])] raises req res s = refusal raises res e s
         ∧ (e = MethodNotAllowed ∨ e = UnknownGroup
            ∨ e = UnrecognizedParticipant (id req)).
Proof.
  split; [done |].
  destruct (decide (method req = "POST")) as [Hm|Hm].
  2:{ exists MethodNotAllowed. rewrite on_end_not_post by done. auto. }
  destruct (own_get (V:=list string) [("/", [])] (url req)) as [ids|] eqn:He.
  2:{ exists UnknownGroup. rewrite on_end_unknown_group by done. auto. }
  exists (UnrecognizedParticipant (id req)).
  rewrite (on_end_unrecognized _ _ _ _ _ ids); auto.
  simpl in He. destruct (decide ("/" = url req)); [| done].
  injection He as <-. by destruct (id req).
Qed.

(** ** The keep-alive ticker *)

Section ticker.
Variable raises : Action → bool.

Lemma attempt_app (l1 l2 : list Action) :
  attempt raises (l1 ++ l2) =
    match (attempt raises l1).2 with
    | Some a => attempt raises l1
    | None => ((attempt raises l1).1 ++ (attempt raises l2).1,
               (attempt raises l2).2)
    end.
Proof.
  induction l1 as [|x l1 IH]; simpl; [by destruct (attempt raises l2) |].
  destruct (raises x); [done |]. rewrite IH.
  destruct (attempt raises l1) as [d1 [a|]]; simpl; [done |].
  by destruct (attempt raises l2).
Qed.

Lemma tick_groups (s : Store) (us : list string) (s0 : Store) :
  us ⊆ own_keys s →
  forEach us (λ url,
    match get s url with
    | Own checkins =>
        forEach (keys checkins)
          (λ id, on_held raises checkins id (λ r, Write r HOLD))
    | _ => throw ETypeError
    end) s0 =
  forEach (u ← us; (λ h, Write h HOLD) <$> release_order (arrived s u))
    (call raises) s0.
Proof.
  revert s0. induction us as [|u us IH]; intros s0 Hus; [done |].
  assert (u ∈ own_keys s) as Hu by (apply Hus; left).
  apply own_get_is_Some in Hu as [c Hc].
  rewrite forEach_cons, bind_run, (proj2 (get_Own s u c) Hc).
  rewrite forEach_on_held by (intros k; apply elem_of_keys).
  assert (arrived s u = c) as Ha by (unfold arrived; by rewrite Hc).
  rewrite bind_cons, Ha. fold (release_order c).
  rewrite !forEach_calls, attempt_app.
  destruct (attempt raises ((λ h, Write h HOLD) <$> release_order c))
    as [d1 [a|]]; cbn [fst snd]; [done |].
  rewrite IH by (intros x Hx; apply Hus; by right).
  rewrite forEach_calls. by destruct (attempt raises _) as [d2 r].
Qed.

(** One tick, as a sequence of calls. *)
Lemma keep_alive_run (s : Store) :
  keep_alive raises s =
    (s, (attempt raises (tick_calls s)).1,
     match (attempt raises (tick_calls s)).2 with
     | None => Normal tt
     | Some a => Throw (EHost a)
     end).
Proof.
  unfold keep_alive. rewrite bind_run. cbn [read_store].
  rewrite tick_groups by (intros k; apply elem_of_keys).
  fold (tick_calls s). rewrite forEach_calls. by rewrite app_nil_l.
Qed.
End ticker.

Lemma bind_Permutation_l {A B} (f : A → list B) (l1 l2 : list A) :
  l1 ≡ₚ l2 → l1 ≫= f ≡ₚ l2 ≫= f.
Proof.
  induction 1 as [|x l1 l2 _ IH|x y l|l1 l2 l3 _ IH1 _ IH2].
  - done.
  - rewrite !bind_cons. by rewrite IH.
  - rewrite !bind_cons. rewrite !(assoc_L (++)).
    by rewrite (Permutation_app_comm (f y) (f x)).
  - by rewrite IH1.
Qed.

Lemma bind_Permutation_ext {A B} (f g : A → list B) (l : list A) :
  (∀ x, x ∈ l → f x ≡ₚ g x) → l ≫= f ≡ₚ l ≫= g.
Proof.
  induction l as [|x l IH]; intros Hfg; [done |].
  rewrite !bind_cons. rewrite (Hfg x) by left.
  rewrite IH; [done |]. intros y Hy. apply Hfg. by right.
Qed.

Lemma fmap_bind_list {A B C} (f : B → C) (g : A → list B) (l : list A) :
  f <$> (l ≫= g) = l ≫= (λ x, f <$> g x).
Proof.
  induction l as [|x l IH]; [done |].
  by rewrite !bind_cons, fmap_app, IH.
Qed.

Lemma tick_calls_Permutation (expected : JsObject.t (list string))
    (s : Store) :
  Inv expected s →
  tick_calls s ≡ₚ (λ h, Write h HOLD) <$> held_handles s.
Proof.
  intros [Hwf Hall]. unfold tick_calls, held_handles.
  rewrite (bind_Permutation_l _ _ _ (keys_Permutation s)).
  unfold own_keys. rewrite list_fmap_bind, fmap_bind_list.
  apply bind_Permutation_ext. intros [u c] Hg. simpl.
  assert (arrived s u = c) as ->.
  { unfold arrived. by rewrite (elem_own_get s u c Hwf Hg). }
  apply (proj1 (Forall_forall _ _) Hall) in Hg as (Hc & _).
  by rewrite (release_order_Permutation c Hc).
Qed.

Lemma tick_calls_held (s : Store) (a : Action) :
  a ∈ tick_calls s → ∃ h, a = Write h HOLD ∧ h ∈ held_handles s.
Proof.
  unfold tick_calls, held_handles. intros Ha.
  apply list_elem_of_bind in Ha as (u & Ha & Hu).
  apply list_elem_of_fmap in Ha as (h & -> & Hh).
  exists h. split; [done |]. apply release_order_sub in Hh.
  apply elem_of_keys, own_get_is_Some in Hu as [c Hc].
  assert (arrived s u = c) as Hac by (unfold arrived; by rewrite Hc).
  rewrite Hac in Hh. apply list_elem_of_bind. exists (u, c).
  split; [done | by apply own_get_Some_elem].
Qed.

(** X10: a tick never changes [checkinStore] and never ends a response:
    whatever the response objects do, all it does is [write('HOLD\r\n')] on
    handles that are held. *)
Theorem X10_tick_only_pings_held (raises : Action → bool) (s : Store)
    (a : Action) :
  (keep_alive raises s).1.1 = s
  ∧ (a ∈ (keep_alive raises s).1.2 →
     ∃ h, a = Write h HOLD ∧ h ∈ held_handles s).
Proof.
  rewrite keep_alive_run. split; [done |]. cbn [fst snd]. intros Ha.
  by apply tick_calls_held, (attempt_sub raises).
Qed.

(** X11: when no [write] raises, a tick pings every held handle of every
    group, each once: its actions are the [write('HOLD\r\n')] calls on the
    handles of [checkinStore], in the order of [Object.keys], and it
    completes normally; when nothing is held it does nothing. *)
Theorem X11_tick_pings_every_held_handle
    (expected : JsObject.t (list string)) (s : Store) :
  Inv expected s →
  keep_alive quiet s = (s, tick_calls s, Normal tt)
  ∧ tick_calls s ≡ₚ (λ h, Write h HOLD) <$> held_handles s
  ∧ (held_handles s = [] → tick_calls s = []).
Proof.
  intros HI. rewrite keep_alive_run, attempt_quiet_all.
  pose proof (tick_calls_Permutation expected s HI) as Hp.
  split_and!; [done | done |].
  intros Hnil. rewrite Hnil in Hp. by apply Permutation_nil_r in Hp.
Qed.

Lemma X11_tick_pings_every_held_handle_witness :
  let s := [("/a", [("h1", 1); ("h2", 2)]); ("/b", [("h9", 3)])] in
  keep_alive quiet s = (s, [Write 1 HOLD; Write 2 HOLD; Write 3 HOLD],
                        Normal tt).
Proof.
  intros s.
  apply (X11_tick_pings_every_held_handle
           [("/a", ["h1"; "h2"; "h3"]); ("/b", ["h9"; "h8"])] s).
  apply (bool_decide_unpack _). vm_compute. exact I.
Defined.

(** ** Runs with response objects that do not raise *)

Section quiet_runs.
Variable expected : JsObject.t (list string).

Local Abbreviation on_end := (on_end expected quiet).

Lemma on_end_quiet_normal req res s :
  ∃ r, (on_end req res s).2 = Normal r.
Proof.
  destruct (decide (method req = "POST")) as [Hm|Hm];
    [| rewrite on_end_not_post by done; by eexists].
  destruct (own_get expected (url req)) as [ids|] eqn:He;
    [| rewrite on_end_unknown_group by done; by eexists].
  destruct (decide (indexOf ids (id req) = (-1)%Z)) as [Hi|Hi];
    [rewrite (on_end_unrecognized _ _ _ _ _ ids) by done; by eexists |].
  destruct (is_undefined (arrived s (url req)) (to_string (id req))) eqn:Hu.
  - rewrite (on_end_accept _ _ _ _ _ ids) by done. cbn zeta. cbn [quiet].
    rewrite attempt_quiet_all. destruct (existsb _ ids); by eexists.
  - rewrite (on_end_duplicate _ _ _ _ _ ids) by done. by eexists.
Qed.

Lemma dispatch_quiet_normal e s :
  (dispatch expected quiet e s).2 = Normal tt.
Proof.
  destruct e as [req res| |h]; simpl; [| | done].
  - rewrite bind_run. destruct (on_end_quiet_normal req res s) as [r Hr].
    destruct (on_end req res s) as [[s1 l1] c]. simpl in Hr. by subst c.
  - by rewrite keep_alive_run, attempt_quiet_all.
Qed.

Lemma run_cons e evs s :
  run expected quiet (e :: evs) s =
    let r1 := dispatch expected quiet e s in
    let r2 := run expected quiet evs r1.1.1 in
    (r2.1.1, r1.1.2 ++ r2.1.2, r2.2).
Proof.
  cbn [run]. rewrite bind_run.
  pose proof (dispatch_quiet_normal e s) as Hn.
  destruct (dispatch expected quiet e s) as [[s1 l1] c]. simpl in Hn.
  subst c. cbn zeta. cbn [fst snd].
  by destruct (run expected quiet evs s1) as [[s2 l2] c2].
Qed.
End quiet_runs.

(** ** Every response is ended once *)

Lemma times_app (h : Handle) (l1 l2 : list Handle) :
  times h (l1 ++ l2) = times h l1 + times h l2.
Proof. unfold times. by rewrite filter_app, length_app. Qed.

Lemma times_Permutation (h : Handle) (l1 l2 : list Handle) :
  l1 ≡ₚ l2 → times h l1 = times h l2.
Proof. unfold times. by intros ->. Qed.

Lemma ends_of_app (h : Handle) (l1 l2 : list Action) :
  ends_of h (l1 ++ l2) = ends_of h l1 + ends_of h l2.
Proof. unfold ends_of. by rewrite filter_app, length_app. Qed.

Lemma ends_of_End (h r : Handle) (d : option string) :
  ends_of h [End r d] = times h [r].
Proof.
  unfold ends_of, times. rewrite !filter_cons, !filter_nil. simpl.
  destruct (decide (r = h)) as [->|Hne].
  - by rewrite bool_decide_eq_true_2, decide_True.
  - by rewrite bool_decide_eq_false_2, decide_False.
Qed.

Lemma ends_of_fmap_End (h : Handle) (d : option string) (l : list Handle) :
  ends_of h ((λ r, End r d) <$> l) = times h l.
Proof.
  induction l as [|r l IH]; [done |]. csimpl.
  change (End r d :: ((λ r, End r d) <$> l))
    with ([End r d] ++ ((λ r, End r d) <$> l)).
  change (r :: l) with ([r] ++ l).
  by rewrite ends_of_app, times_app, ends_of_End, IH.
Qed.

Lemma ends_of_fmap_Write (h : Handle) (l : list Action) :
  (∀ a, a ∈ l → ∃ r, a = Write r HOLD) → ends_of h l = 0.
Proof.
  unfold ends_of. induction l as [|a l IH]; intros Hl; [done |].
  rewrite filter_cons. destruct (Hl a) as [r ->]; [left |]. simpl.
  apply IH. intros x Hx. apply Hl. by right.
Qed.

Lemma held_handles_cons (u : string) (c : JsObject.t Handle) (s : Store) :
  held_handles ((u, c) :: s) = c.*2 ++ held_handles s.
Proof. unfold held_handles. by rewrite bind_cons. Qed.

Lemma held_handles_set (s : Store) (u : string) :
  ∃ A B,
    held_handles s = A ++ (arrived s u).*2 ++ B
    ∧ ∀ c, held_handles (set s u c) = A ++ c.*2 ++ B.
Proof.
  induction s as [|[u' c'] s (A & B & Hs & Hset)].
  - exists [], []. split; [done |]. intros c. cbn [set].
    rewrite held_handles_cons. done.
  - unfold arrived. cbn [own_get set].
    destruct (decide (u' = u)) as [->|Hne].
    + exists [], (held_handles s). split; [apply held_handles_cons |].
      intros c. apply held_handles_cons.
    + exists (c'.*2 ++ A), B. fold (arrived s u).
      rewrite held_handles_cons, Hs.
      split; [by rewrite <- (assoc_L (++)) |].
      intros c. rewrite held_handles_cons, Hset.
      by rewrite <- (assoc_L (++)).
Qed.

Section conservation.
Variable expected : JsObject.t (list string).

Lemma on_end_conservation req res s h :
  Inv expected s →
  let r := on_end expected quiet req res s in
  times h (held_handles s) + times h [res] =
    ends_of h r.1.2 + times h (held_handles r.1.1).
Proof.
  intros HI r. unfold r.
  destruct (held_handles_set s (url req)) as (A & B & Hs & Hset).
  assert (∀ e0, times h (held_handles s) + times h [res] =
                ends_of h (refusal quiet res e0 s).1.2
                + times h (held_handles s)) as Href.
  { intros e0. simpl.
    change [SetStatusCode res (statusCode e0); End res (message e0)]
      with ([SetStatusCode res (statusCode e0)] ++ [End res (message e0)]).
    rewrite ends_of_app, ends_of_End. unfold ends_of at 1. simpl. lia. }
  destruct (decide (method req = "POST")) as [Hm|Hm];
    [| rewrite on_end_not_post by done; apply Href].
  destruct (own_get expected (url req)) as [ids|] eqn:He;
    [| rewrite on_end_unknown_group by done; apply Href].
  destruct (decide (indexOf ids (id req) = (-1)%Z)) as [Hi|Hi];
    [rewrite (on_end_unrecognized _ _ _ _ _ ids) by done; apply Href |].
  destruct (is_undefined (arrived s (url req)) (to_string (id req))) eqn:Hu.
  2:{ rewrite (on_end_duplicate _ _ _ _ _ ids) by done.
      unfold refusal. cbn [fst snd]. rewrite Hset, <- Hs. apply Href. }
  rewrite (on_end_accept _ _ _ _ _ ids) by done. cbn zeta. cbn [quiet].
  rewrite attempt_quiet_all.
  pose proof (Inv_arrived expected s (url req) ids HI He) as (Hwf & _ & _).
  simpl in Hwf.
  apply is_undefined_true in Hu as [Hfresh _].
  assert ((set (arrived s (url req)) (to_string (id req)) res).*2
          = (arrived s (url req)).*2 ++ [res]) as Hvals
    by (rewrite set_fresh by done; by rewrite fmap_app).
  destruct (existsb _ ids); cbn [fst snd].
  - rewrite Hset, Hs, Hvals. unfold ends_of at 1. simpl.
    rewrite !times_app. lia.
  - rewrite Hset, Hs.
    change (WriteHead res 200 :: release_calls ?c)
      with ([WriteHead res 200] ++ release_calls c).
    rewrite ends_of_app. unfold ends_of at 1. simpl.
    unfold release_calls. rewrite ends_of_fmap_End.
    rewrite (times_Permutation h _ _
               (release_order_Permutation _ (well_formed_set _ _ res Hwf))).
    rewrite Hvals, !times_app. simpl. lia.
Qed.

Lemma dispatch_conservation e s h :
  Inv expected s →
  let r := dispatch expected quiet e s in
  times h (held_handles s) + times h (responses_of [e]) =
    ends_of h r.1.2 + times h (held_handles r.1.1).
Proof.
  intros HI. destruct e as [req res| |x]; cbn zeta.
  - pose proof (on_end_conservation req res s h HI) as H. cbn zeta in H.
    cbn [dispatch]. rewrite bind_run.
    destruct (on_end expected quiet req res s) as [[s1 l1] [r|y]];
      simpl in *; by rewrite ?app_nil_r.
  - cbn [dispatch]. rewrite keep_alive_run, attempt_quiet_all. cbn [fst snd].
    rewrite ends_of_fmap_Write;
      [cbn [responses_of]; change (times h []) with 0; lia |].
    intros a Ha. apply tick_calls_held in Ha as (r & -> & _). eauto.
  - simpl. unfold ends_of, times. simpl. lia.
Qed.

Lemma run_conservation evs s h :
  Inv expected s →
  let r := run expected quiet evs s in
  r.2 = Normal tt
  ∧ times h (held_handles s) + times h (responses_of evs) =
      ends_of h r.1.2 + times h (held_handles r.1.1).
Proof.
  revert s. induction evs as [|e evs IH]; intros s HI.
  - simpl. split; [done |]. unfold ends_of, times. simpl. lia.
  - cbn zeta. rewrite run_cons. cbn zeta. cbn [fst snd].
    pose proof (dispatch_conservation e s h HI) as H1. cbn zeta in H1.
    pose proof (Inv_dispatch expected quiet s e HI) as HI1.
    destruct (IH _ HI1) as [Hn H2]. split; [done |].
    rewrite ends_of_app.
    assert (times h (responses_of (e :: evs)) =
              times h (responses_of [e]) + times h (responses_of evs)) as ->.
    { destruct e; simpl; try done.
      change (res :: responses_of evs) with ([res] ++ responses_of evs).
      by rewrite times_app. }
    lia.
Qed.
End conservation.

(** X14: with response objects that do not raise, every event of a run is
    handled to the end, and every response is ended exactly once or is still
    held: for each handle, the number of requests that came with it is the
    number of [end] calls it has received plus the number of entries of
    [checkinStore] that hold it.  So a response is never ended twice, never
    ended while it stays in an arrived map, and never dropped without being
    ended. *)
Theorem X14_every_response_ended_once_or_held
    (expected : JsObject.t (list string)) (evs : list Event) (h : Handle) :
  let r := run expected quiet evs initial in
  r.2 = Normal tt
  ∧ times h (responses_of evs) =
      ends_of h r.1.2 + times h (held_handles r.1.1)
  ∧ (NoDup (responses_of evs) →
     (ends_of h r.1.2 ≤ 1)%nat
     ∧ (h ∈ held_handles r.1.1 → ends_of h r.1.2 = 0)).
Proof.
  intros r.
  destruct (run_conservation expected evs initial h (Inv_initial expected))
    as [Hn Hc].
  fold r in Hn, Hc. simpl in Hc. split_and!; [done | done |].
  intros Hnd.
  assert (times h (responses_of evs) ≤ 1)%nat as Hle.
  { clear Hc. unfold times.
    induction Hnd as [|x l Hx _ IH]; [simpl; lia |].
    rewrite filter_cons. destruct (decide (x = h)) as [->|]; [| done].
    simpl. destruct (filter _ l) as [|y l'] eqn:E; [simpl; lia |].
    assert (y ∈ filter (λ v, v = h) l) as Hy by (rewrite E; left).
    apply list_elem_of_filter in Hy as [-> Hy]. done. }
  split; [lia |]. intros Hin.
  assert (1 ≤ times h (held_handles r.1.1))%nat; [| lia].
  unfold times. destruct (filter _ (held_handles r.1.1)) as [|y l'] eqn:E;
    [| simpl; lia].
  assert (h ∈ filter (λ v, v = h) (held_handles r.1.1)) as Hy
    by by apply list_elem_of_filter.
  rewrite E in Hy. by apply elem_of_nil in Hy.
Qed.

(** ** Loading the configuration *)

Lemma copy_key_other (u config : JsObject.t ConfigValue) (x k : string) :
  x ≠ k → own_get (copy_key u config x) k = own_get config k.
Proof.
  intros Hne. unfold copy_key. destruct (get u x); try done.
  destruct (decide (x = "__proto__")); [done |]. by apply own_get_set_ne.
Qed.

Lemma foldl_copy_key_own (u : JsObject.t ConfigValue) (k : string)
    (ks : list string) (config : JsObject.t ConfigValue) :
  is_Some (own_get u k) → k ≠ "__proto__" →
  k ∈ ks ∨ own_get config k = own_get u k →
  own_get (foldl (copy_key u) config ks) k = own_get u k.
Proof.
  intros [v Hv] Hp. revert config.
  induction ks as [|x ks IH]; intros config Hk.
  - destruct Hk as [Hk|Hk]; [by apply elem_of_nil in Hk | done].
  - simpl. apply IH. destruct (decide (x = k)) as [->|Hne].
    + right. unfold copy_key. rewrite (proj2 (get_Own u k v) Hv).
      rewrite decide_False by done. by rewrite own_get_set_eq.
    + destruct Hk as [Hk|Hk].
      * left. apply elem_of_cons in Hk as [->|Hk]; done.
      * right. by rewrite copy_key_other.
Qed.

(** X15: the configuration file overrides the defaults key by key: as own
    properties of [config], a key of the file (other than [__proto__]) has
    the value of the file and every other key keeps its default; without a
    readable file the defaults stand. *)
Theorem X15_configuration_overrides_defaults
    (userConfig : JsObject.t ConfigValue) (k : string) :
  (k ∈ own_keys userConfig → k ≠ "__proto__" →
   own_get (load_config (Some userConfig)) k = own_get userConfig k)
  ∧ (k ∉ own_keys userConfig →
     own_get (load_config (Some userConfig)) k = own_get default_config k)
  ∧ load_config None = default_config.
Proof.
  split_and!; [| | done].
  - intros Hk Hp. unfold load_config.
    apply foldl_copy_key_own; [by apply own_get_is_Some | done |].
    left. by apply elem_of_keys.
  - intros Hk. unfold load_config. apply foldl_copy_key_other.
    by rewrite elem_of_keys.
Qed.

(** X16: the interval of the ticker can be configured, but only under the
    key spelled [keepaliveIntervalMs]: for a configuration file that does
    not set [__proto__], the argument of [setInterval] is the value that the
    file gives to that key, and [undefined] when the file does not have it,
    whatever else it sets. *)
Theorem X16_interval_key (userConfig : JsObject.t ConfigValue) :
  own_get userConfig "__proto__" = None →
  interval_argument (load_config (Some userConfig)) =
    match own_get userConfig "keepaliveIntervalMs" with
    | Some v => Own v
    | None => Undefined
    end.
Proof.
  intros _.
  destruct (own_get userConfig "keepaliveIntervalMs") as [v|] eqn:Hv.
  - unfold interval_argument, get, load_config.
    rewrite foldl_copy_key_own; [by rewrite Hv | eauto | done |].
    left. apply elem_of_keys, own_get_is_Some. eauto.
  - by apply interval_argument_undefined.
Qed.

Lemma X16_interval_key_witness :
  interval_argument
    (load_config (Some [("keepAliveIntervalMs", VNumber 30000);
                        ("keepaliveIntervalMs", VNumber 45000)]))
  = Own (VNumber 45000).
Proof.
  apply (X16_interval_key [("keepAliveIntervalMs", VNumber 30000);
                           ("keepaliveIntervalMs", VNumber 45000)]).
  reflexivity.
Defined.

(** ** The order of release *)

Lemma keys_order_no_index (ks : list string) :
  Forall (λ k, array_index k = None) ks → keys_order ks = ks.
Proof.
  intros Hks. unfold keys_order.
  assert (filter is_index ks = []) as ->.
  { induction Hks as [|k ks Hk _ IH]; [done |].
    rewrite filter_cons, decide_False; [done |].
    unfold is_index. rewrite Hk. by intros [? ?]. }
  assert (filter (λ k, ¬ is_index k) ks = ks) as ->; [| done].
  induction Hks as [|k ks Hk _ IH]; [done |].
  rewrite filter_cons, decide_True, IH; [done |].
  unfold is_index. rewrite Hk. by intros [? ?].
Qed.

(** X17: when no id of an arrived map is an array index (a canonical
    decimal numeral), the responses of a completed round are released in
    the order in which they arrived. *)
Theorem X17_release_in_arrival_order (checkins : JsObject.t Handle) :
  well_formed checkins →
  Forall (λ k, array_index k = None) (own_keys checkins) →
  release_calls checkins = (λ r, End r (Some GO)) <$> checkins.*2.
Proof.
  intros Hwf Hks. unfold release_calls, release_order, keys.
  by rewrite keys_order_no_index, omap_own_get_keys.
Qed.

Lemma X17_release_in_arrival_order_witness :
  release_calls [("web2", 5); ("web1", 6); ("db", 4)] =
    [End 5 (Some GO); End 6 (Some GO); End 4 (Some GO)].
Proof.
  apply (X17_release_in_arrival_order [("web2", 5); ("web1", 6); ("db", 4)]).
  - apply (bool_decide_unpack _). vm_compute. exact I.
  - repeat constructor.
Defined.
